(** * atlas-scribe: the storage service ([src/services/storage.js])

    A shallow embedding of the key-value store layer: the memory and
    directory backends, the key-transform combinators, the JSON-modeled
    storage and the factory that assembles them, followed by the
    properties of the storage contract.

    Conventions of the embedding
    - a JavaScript string is a [string]; its length counts code units;
    - an [async] function is run to completion: it either resolves
      ([Normal]) or rejects ([Throw]); no two calls interleave;
    - a store is a capability object closing over mutable state; here the
      state is passed explicitly: a store is a record of four operations
      over a state type, packed with the state by the constructor. *)

From stdpp Require Import base option list gmap strings fin_maps.
From Stdlib Require Import Ascii ZArith Lia.

Local Open Scope string_scope.
Local Open Scope Z_scope.

(** ** JavaScript values used by the service *)

Module JS.

(** The errors the service meets: an [Error] made with [new Error(message)],
    the [SyntaxError] of [JSON.parse] (its text depends on the engine),
    and the error a call of [fs] rejects with, of which the [code] property
    is what the directory store branches on. *)
Inductive Error : Type :=
| newError (message : string)
| SyntaxError
| SystemError (code : string).

(** [error.code] *)
Definition code (error : Error) : option string :=
  match error with
  | SystemError c => Some c
  | newError _ | SyntaxError => None
  end.

(** How a call ends: it returns a value, or throws (for an [async]
    function: the promise resolves, or rejects). *)
Inductive Completion (A : Type) : Type :=
| Normal (a : A)
| Throw (e : Error).
Global Arguments Normal {A} a.
Global Arguments Throw {A} e.

Definition bind {A B} (c : Completion A) (k : A -> Completion B) : Completion B :=
  match c with
  | Normal a => k a
  | Throw e => Throw e
  end.

(** [s.length] *)
Definition strlen (s : string) : Z := Z.of_nat (String.length s).

(** [String.prototype.slice(start, end)]: negative indices count from the
    end of the string, both indices are clamped to [0 .. length], and an
    omitted [end] is the length. *)
Definition slice (s : string) (start : Z) (end_ : option Z) : string :=
  let len := strlen s in
  let from := if start <? 0 then Z.max (len + start) 0 else Z.min start len in
  let intEnd := match end_ with Some e => e | None => len end in
  let to := if intEnd <? 0 then Z.max (len + intEnd) 0 else Z.min intEnd len in
  String.substring (Z.to_nat from) (Z.to_nat (Z.max (to - from) 0)) s.

End JS.

Notation "x <- c ;; k" := (JS.bind c (fun x => k))
  (at level 100, c at next level, right associativity, only parsing).

(** ** The Result type ([../lib/result], [@lukekaalim/result]) *)

Inductive Result (S F : Type) : Type :=
| success (s : S)
| failure (f : F).
Arguments success {S F} s.
Arguments failure {S F} f.

(** Modelled from the spec: [succeed] of [../lib/result], a file that is
    not among the sources; [succeed(value)] constructs a success. *)
Definition succeed {S F} (value : S) : Result S F := success value.

(** Modelled from the spec: [fail] of [../lib/result]; [fail(failure)]
    constructs a failure. *)
Definition fail {S F} (f : F) : Result S F := failure f.

(** Modelled from the spec: [handleResult] of [../lib/result];
    [handleResult(result, onSuccess, onFailure)] dispatches to the matching
    handler and returns its output. *)
Definition handleResult {S F A} (result : Result S F)
    (onSuccess : S -> A) (onFailure : F -> A) : A :=
  match result with
  | success s => onSuccess s
  | failure f => onFailure f
  end.

(** [chain] of [@lukekaalim/result], a package that is not among the
    sources. A pipeline [chain(result).then(fn).catch(fn).result()] threads
    a success through the [then] stages, short-circuits to the first
    failure, and lets a [catch] stage turn one failure into another. A
    stage is an ordinary call: what it throws is not caught by the
    pipeline. *)
Module chain.

(** Modelled from the spec: [.then(fn)] runs [fn] on a success and lets a
    failure pass. *)
Definition then_ {S S' F} (result : Result S F)
    (fn : S -> JS.Completion (Result S' F)) : JS.Completion (Result S' F) :=
  match result with
  | success s => fn s
  | failure f => JS.Normal (failure f)
  end.

(** Modelled from the spec: [.catch(fn)] runs [fn] on a failure and lets a
    success pass. *)
Definition catch {S F F'} (result : Result S F)
    (fn : F -> JS.Completion (Result S F')) : JS.Completion (Result S F') :=
  match result with
  | success s => JS.Normal (success s)
  | failure f => fn f
  end.

(** Modelled from the spec: [.result()] hands out the Result the pipeline
    arrived at. *)
Definition result {S F} (r : Result S F) : Result S F := r.

End chain.

(** ** The failure taxonomy *)

Inductive Failure : Type :=
| NotFound                                (* { type: 'not-found' } *)
| InternalFailure (error : JS.Error)      (* { type: 'internal-failure', error } *)
| CastFailure (message : string).         (* { type: 'cast-failure', message } *)

(** ** The store contract: [STDMapStore<Key, Value>] *)

Module STDMapStore.
Record t (St Key Value : Type) : Type := {
  list_ : St -> JS.Completion (Result (list Key) Failure);
  read : Key -> St -> JS.Completion (Result Value Failure);
  write : Key -> Value -> St -> St * JS.Completion (Result unit Failure);
  destroy : Key -> St -> St * JS.Completion (Result unit Failure);
}.
Arguments list_ {St Key Value} _ _.
Arguments read {St Key Value} _ _ _.
Arguments write {St Key Value} _ _ _ _.
Arguments destroy {St Key Value} _ _ _.
End STDMapStore.

(** A store object as its constructor returns it: the operations together
    with the state they close over, and the four calls on such an object,
    each leaving the object with the state the call ended in. *)
Module Store.
Record t (Key Value : Type) : Type := mk {
  Backing : Type;
  state : Backing;
  api : STDMapStore.t Backing Key Value;
}.
Arguments mk {Key Value} Backing state api.
Arguments Backing {Key Value} _.
Arguments state {Key Value} _.
Arguments api {Key Value} _.

Section calls.
Context {Key Value : Type}.

Definition list_ (store : t Key Value) : JS.Completion (Result (list Key) Failure) :=
  STDMapStore.list_ (api store) (state store).

Definition read (store : t Key Value) (key : Key)
    : JS.Completion (Result Value Failure) :=
  STDMapStore.read (api store) key (state store).

Definition write (store : t Key Value) (key : Key) (value : Value)
    : t Key Value * JS.Completion (Result unit Failure) :=
  let after := STDMapStore.write (api store) key value (state store) in
  (mk (Backing store) after.1 (api store), after.2).

Definition destroy (store : t Key Value) (key : Key)
    : t Key Value * JS.Completion (Result unit Failure) :=
  let after := STDMapStore.destroy (api store) key (state store) in
  (mk (Backing store) after.1 (api store), after.2).
End calls.
End Store.

(** ** The file system seen through [fs.promises] and [path]

    The directory store talks to the operating system only through
    [stat], [mkdir], [readdir], [readFile], [writeFile] and [unlink] of
    [fs.promises] and through [join] of [path]. They are modelled on a tree
    of directories and regular files (POSIX, as Linux reports errors): no
    symbolic links, no permissions, no limits on names or space, and nobody
    else changing the tree. A file holds text: strings are taken to be
    well-formed, so that what [writeFile] encodes as utf-8 is what
    [readFile] decodes. A path is resolved component by component from the
    root (absolute) or from the working directory (relative); [.] and empty
    components are skipped, and [..] steps back one name without looking at
    the tree. Where systems differ the model follows Linux: [unlink] of a
    directory is [EISDIR] there and [EPERM] elsewhere, neither of which the
    store takes for a missing file. *)

Module FS.

#[local] Set Warnings "-register-all".
Inductive node : Type :=
| File (content : string)
| Dir (entries : gmap string node).
#[local] Set Warnings "register-all".

(** The tree below the root directory, and the working directory of the
    process as the names leading to it from the root. *)
Record t : Type := mk { root : gmap string node; cwd : list string }.

(** The codes of the errors met here: four of the system, and the one of
    Node itself for a path with a null byte. *)
Inductive errno : Type :=
| ENOENT | EEXIST | EISDIR | ENOTDIR | ERR_INVALID_ARG_VALUE.

Definition errno_code (e : errno) : string :=
  match e with
  | ENOENT => "ENOENT"
  | EEXIST => "EEXIST"
  | EISDIR => "EISDIR"
  | ENOTDIR => "ENOTDIR"
  | ERR_INVALID_ARG_VALUE => "ERR_INVALID_ARG_VALUE"
  end.

(** The [Error] a failed call rejects with. *)
Definition error (e : errno) : JS.Error := JS.SystemError (errno_code e).

(** [s.split('/')]: the pieces between slashes, empty pieces included. *)
Fixpoint split (s : string) : list string :=
  match s with
  | EmptyString => [EmptyString]
  | String c rest =>
      if Ascii.eqb c "/"%char then EmptyString :: split rest
      else match split rest with
           | [] => [String c EmptyString]
           | piece :: pieces => String c piece :: pieces
           end
  end.

Definition isAbsolute (p : string) : bool :=
  match p with
  | String c _ => Ascii.eqb c "/"%char
  | EmptyString => false
  end.

Fixpoint endsWithSlash (p : string) : bool :=
  match p with
  | EmptyString => false
  | String c EmptyString => Ascii.eqb c "/"%char
  | String _ rest => endsWithSlash rest
  end.

(** *** [path.join] (POSIX flavour) *)

(** [normalizeString]: drop empty and [.] segments; a [..] removes the
    segment before it, unless there is none or it is itself [..], in which
    case it is kept when the path is relative and dropped otherwise. *)
Fixpoint normalizeSegments (allowAboveRoot : bool) (res segments : list string)
    : list string :=
  match segments with
  | [] => res
  | seg :: rest =>
      if bool_decide (seg = "") || bool_decide (seg = ".") then
        normalizeSegments allowAboveRoot res rest
      else if bool_decide (seg = "..") then
        if bool_decide (List.last res ".." = "..") then
          normalizeSegments allowAboveRoot
            (if allowAboveRoot then res ++ [".."] else res) rest
        else normalizeSegments allowAboveRoot (List.removelast res) rest
      else normalizeSegments allowAboveRoot (res ++ [seg]) rest
  end.

Fixpoint joinSegments (segments : list string) : string :=
  match segments with
  | [] => ""
  | [seg] => seg
  | seg :: rest => seg +:+ "/" +:+ joinSegments rest
  end.

Definition normalize (path : string) : string :=
  if bool_decide (path = "") then "."
  else
    let isAbs := isAbsolute path in
    let trailingSeparator := endsWithSlash path in
    let body := joinSegments (normalizeSegments (negb isAbs) [] (split path)) in
    if bool_decide (body = "") then
      if isAbs then "/" else if trailingSeparator then "./" else "."
    else
      let body := if trailingSeparator then body +:+ "/" else body in
      if isAbs then "/" +:+ body else body.

(** [join(a, b)]: the non-empty arguments glued with a slash, then
    normalized. *)
Definition join (a b : string) : string :=
  if bool_decide (a = "") then
    if bool_decide (b = "") then "." else normalize b
  else if bool_decide (b = "") then normalize a
  else normalize (a +:+ "/" +:+ b).

(** *** Path resolution *)

Fixpoint walk (here : list string) (components : list string) : list string :=
  match components with
  | [] => here
  | c :: rest =>
      if bool_decide (c = "") || bool_decide (c = ".") then walk here rest
      else if bool_decide (c = "..") then walk (List.removelast here) rest
      else walk (here ++ [c]) rest
  end.

(** A path that ends in a slash or in a [.] component names a
    directory. *)
Definition wantsDirectory (p : string) : bool :=
  let name := List.last (split p) "" in
  bool_decide (name = "") || bool_decide (name = ".").

Fixpoint hasNullByte (p : string) : bool :=
  match p with
  | EmptyString => false
  | String c rest => Ascii.eqb c Ascii.zero || hasNullByte rest
  end.

(** The names from the root to the object a path designates, and whether
    the path insists on a directory. A path with a null byte is refused
    before the system sees it; the empty path designates nothing. *)
Definition locate (w : t) (p : string) : errno + (list string * bool) :=
  if hasNullByte p then inl ERR_INVALID_ARG_VALUE
  else if bool_decide (p = "") then inl ENOENT
  else inr (walk (if isAbsolute p then [] else cwd w) (split p),
            wantsDirectory p).

(** *** The tree *)

Definition isDirectory (n : node) : bool :=
  match n with
  | Dir _ => true
  | File _ => false
  end.

Fixpoint find (entries : gmap string node) (names : list string) : errno + node :=
  match names with
  | [] => inr (Dir entries)
  | name :: rest =>
      match entries !! name with
      | None => inl ENOENT
      | Some (Dir inner) => find inner rest
      | Some (File content) =>
          match rest with
          | [] => inr (File content)
          | _ :: _ => inl ENOTDIR
          end
      end
  end.

(** Replace, create or remove the entry designated by [names], as [f]
    decides from what is there; the directories on the way must exist,
    and the root itself is never replaced. *)
Fixpoint change (f : option node -> errno + option node)
    (entries : gmap string node) (names : list string)
    : errno + gmap string node :=
  match names with
  | [] =>
      match f (Some (Dir entries)) with
      | inl e => inl e
      | inr _ => inr entries
      end
  | [name] =>
      match f (entries !! name) with
      | inl e => inl e
      | inr (Some n) => inr (<[name := n]> entries)
      | inr None => inr (delete name entries)
      end
  | name :: rest =>
      match entries !! name with
      | None => inl ENOENT
      | Some (File _) => inl ENOTDIR
      | Some (Dir inner) =>
          match change f inner rest with
          | inl e => inl e
          | inr inner' => inr (<[name := Dir inner']> entries)
          end
      end
  end.

(** [mkdir -p]: create the missing directories along [names]. *)
Fixpoint makeDirectories (entries : gmap string node) (names : list string)
    : errno + gmap string node :=
  match names with
  | [] => inr entries
  | name :: rest =>
      match entries !! name with
      | Some (File _) =>
          inl (match rest with [] => EEXIST | _ :: _ => ENOTDIR end)
      | Some (Dir inner) =>
          match makeDirectories inner rest with
          | inl e => inl e
          | inr inner' => inr (<[name := Dir inner']> entries)
          end
      | None =>
          match makeDirectories ∅ rest with
          | inl e => inl e
          | inr inner' => inr (<[name := Dir inner']> entries)
          end
      end
  end.

(** *** The calls of [fs.promises]; [inl] is the rejection *)

(** [stat(path)] *)
Definition stat (w : t) (path : string) : errno + node :=
  match locate w path with
  | inl e => inl e
  | inr (names, dirOnly) =>
      match find (root w) names with
      | inl e => inl e
      | inr (File content) =>
          if dirOnly then inl ENOTDIR else inr (File content)
      | inr (Dir entries) => inr (Dir entries)
      end
  end.

(** [mkdir(path, { recursive: true })] *)
Definition mkdir_recursive (w : t) (path : string) : errno + t :=
  match locate w path with
  | inl e => inl e
  | inr (names, _) =>
      match makeDirectories (root w) names with
      | inl e => inl e
      | inr root' => inr {| root := root'; cwd := cwd w |}
      end
  end.

(** [readdir(path)]: the names in the directory, in no particular
    order. *)
Definition readdir (w : t) (path : string) : errno + list string :=
  match locate w path with
  | inl e => inl e
  | inr (names, _) =>
      match find (root w) names with
      | inl e => inl e
      | inr (File _) => inl ENOTDIR
      | inr (Dir entries) => inr (fst <$> map_to_list entries)
      end
  end.

(** [readFile(path, 'utf-8')] *)
Definition readFile (w : t) (path : string) : errno + string :=
  match locate w path with
  | inl e => inl e
  | inr (names, dirOnly) =>
      match find (root w) names with
      | inl e => inl e
      | inr (Dir _) => inl EISDIR
      | inr (File content) => if dirOnly then inl ENOTDIR else inr content
      end
  end.

(** What [writeFile] and [unlink] do with the entry they reach; a path
    that insists on a directory never yields a file. The store hands
    [writeFile] joined paths only, which insist on a directory by ending in
    a slash: the system then refuses to open the file for writing with
    [EISDIR], whether a regular file of that name is there or not. *)
Definition writes (dirOnly : bool) (data : string) (old : option node)
    : errno + option node :=
  match old with
  | Some (Dir _) => inl EISDIR
  | Some (File _) => if dirOnly then inl EISDIR else inr (Some (File data))
  | None => if dirOnly then inl EISDIR else inr (Some (File data))
  end.

Definition unlinks (dirOnly : bool) (old : option node) : errno + option node :=
  match old with
  | Some (Dir _) => inl EISDIR
  | Some (File _) => if dirOnly then inl ENOTDIR else inr None
  | None => inl ENOENT
  end.

(** [writeFile(path, data, 'utf-8')]: create the file or replace its
    content; the directory it lives in must exist. *)
Definition writeFile (w : t) (path : string) (data : string) : errno + t :=
  match locate w path with
  | inl e => inl e
  | inr (names, dirOnly) =>
      match change (writes dirOnly data) (root w) names with
      | inl e => inl e
      | inr root' => inr {| root := root'; cwd := cwd w |}
      end
  end.

(** [unlink(path)]: remove a file; a directory is refused. *)
Definition unlink (w : t) (path : string) : errno + t :=
  match locate w path with
  | inl e => inl e
  | inr (names, dirOnly) =>
      match change (unlinks dirOnly) (root w) names with
      | inl e => inl e
      | inr root' => inr {| root := root'; cwd := cwd w |}
      end
  end.

(** An entry function that refuses directories and never makes one. *)
Definition filesOnly (f : option node -> errno + option node) : Prop :=
  (forall entries, f (Some (Dir entries)) = inl EISDIR) /\
  (forall old entries, f old <> inr (Some (Dir entries))).

Fixpoint hasSlash (s : string) : bool :=
  match s with
  | EmptyString => false
  | String c rest => Ascii.eqb c "/"%char || hasSlash rest
  end.

(** A name that a file in a directory can bear as it stands. *)
Definition plainName (key : string) : Prop :=
  key <> "" /\ key <> "." /\ key <> ".." /\
  hasSlash key = false /\ hasNullByte key = false.

(** A path component that stays when the path is resolved: neither empty
    nor [.]. *)
Definition kept (seg : string) : Prop := seg <> "" /\ seg <> ".".

(** An empty disk, the process sitting in the root directory. *)
Definition empty : t := {| root := ∅; cwd := [] |}.

End FS.

(** ** The memory store *)

(** [createMap2] of [../lib/map2], a file that is not among the sources.
    The memory store is "backed by an ordinary mutable key-to-value
    mapping" (spec, 4.3); the store handles what [get], [set] and [delete]
    answer with [handleResult], so they answer with a Result. *)
Module Map2.
Section Map2.
Context {K V : Type} `{Countable K}.

(** Modelled from the spec: a new mapping is empty. *)
Definition createMap2 : gmap K V := ∅.

(** Modelled from the spec: the pairs the mapping holds. *)
Definition entries (m : gmap K V) : list (K * V) := map_to_list m.

(** Modelled from the spec: [get] succeeds with the value of a key that is
    there and fails for a key that is absent (the store turns the failure
    into not-found). *)
Definition get (key : K) (m : gmap K V) : Result V unit :=
  match m !! key with
  | Some value => success value
  | None => failure tt
  end.

(** Modelled from the spec: [set] creates or overwrites the entry; it has
    no failure (the store types its failure as [empty]). *)
Definition set (key : K) (value : V) (m : gmap K V)
    : gmap K V * Result unit Empty_set :=
  (<[key := value]> m, success tt).

(** Modelled from the spec: [delete] removes the entry of a key that is
    there and fails for a key that is absent (the store turns the failure
    into not-found). *)
Definition delete (key : K) (m : gmap K V) : gmap K V * Result unit unit :=
  match m !! key with
  | Some _ => (base.delete key m, success tt)
  | None => (m, failure tt)
  end.
End Map2.
End Map2.

(** The operations [createMemoryMapStore] returns, over its [internalMap].
    ([list] is spelled [list_] throughout, the type of lists having the
    name.) *)
Module MemoryMapStore.
Section MemoryMapStore.
Context {K V : Type} `{Countable K}.

Definition list_ (internalMap : gmap K V)
    : JS.Completion (Result (list K) Failure) :=
  JS.Normal (succeed ((fun '(key, value) => key) <$> Map2.entries internalMap)).

Definition read (key : K) (internalMap : gmap K V)
    : JS.Completion (Result V Failure) :=
  JS.Normal (handleResult (Map2.get key internalMap)
    (fun value => succeed value)
    (fun failure => fail NotFound)).

Definition write (key : K) (value : V) (internalMap : gmap K V)
    : gmap K V * JS.Completion (Result unit Failure) :=
  let (internalMap', result) := Map2.set key value internalMap in
  (internalMap', JS.Normal (handleResult result
    (fun _ => succeed tt)
    (fun empty : Empty_set => match empty with end))).

Definition destroy (key : K) (internalMap : gmap K V)
    : gmap K V * JS.Completion (Result unit Failure) :=
  let (internalMap', result) := Map2.delete key internalMap in
  (internalMap', JS.Normal (handleResult result
    (fun value => succeed tt)
    (fun failure => fail NotFound))).

Definition ops : STDMapStore.t (gmap K V) K V :=
  {| STDMapStore.list_ := list_; STDMapStore.read := read;
     STDMapStore.write := write; STDMapStore.destroy := destroy |}.
End MemoryMapStore.
End MemoryMapStore.

Definition createMemoryMapStore {K V : Type} `{Countable K} : Store.t K V :=
  Store.mk (gmap K V) Map2.createMap2 MemoryMapStore.ops.

(** ** The directory store *)

(** [error.code === 'EEXIST' || error.code === 'ENOENT'] *)
Definition isMissing (error : JS.Error) : bool :=
  bool_decide (JS.code error = Some "EEXIST")
  || bool_decide (JS.code error = Some "ENOENT").

Definition directoryExists (path : string) (w : FS.t) : JS.Completion bool :=
  match FS.stat w path with
  | inr stats => JS.Normal (FS.isDirectory stats)
  | inl e =>
      let error := FS.error e in
      if isMissing error then JS.Normal false else JS.Throw error
  end.

(** The operations [createDirectoryMapStore(path)] returns, over the file
    system. *)
Module DirectoryMapStore.
Section DirectoryMapStore.
Variable path : string.

Definition list_ (w : FS.t) : JS.Completion (Result (list string) Failure) :=
  match FS.readdir w path with
  | inr names => JS.Normal (succeed names)
  | inl e => JS.Normal (fail (InternalFailure (FS.error e)))
  end.

Definition read (key : string) (w : FS.t) : JS.Completion (Result string Failure) :=
  let filename := FS.join path key in
  match FS.readFile w filename with
  | inr content => JS.Normal (succeed content)
  | inl e =>
      let error := FS.error e in
      if isMissing error then JS.Normal (fail NotFound)
      else JS.Normal (fail (InternalFailure error))
  end.

Definition write (key value : string) (w : FS.t)
    : FS.t * JS.Completion (Result unit Failure) :=
  let filename := FS.join path key in
  match FS.writeFile w filename value with
  | inr w' => (w', JS.Normal (succeed tt))
  | inl e => (w, JS.Normal (fail (InternalFailure (FS.error e))))
  end.

(** [filename] is computed and then not used: the call is
    [unlink(path)]. *)
Definition destroy (key : string) (w : FS.t)
    : FS.t * JS.Completion (Result unit Failure) :=
  let filename := FS.join path key in
  match FS.unlink w path with
  | inr w' => (w', JS.Normal (succeed tt))
  | inl e =>
      let error := FS.error e in
      if isMissing error then (w, JS.Normal (fail NotFound))
      else (w, JS.Normal (fail (InternalFailure error)))
  end.

Definition ops : STDMapStore.t FS.t string string :=
  {| STDMapStore.list_ := list_; STDMapStore.read := read;
     STDMapStore.write := write; STDMapStore.destroy := destroy |}.
End DirectoryMapStore.
End DirectoryMapStore.

Definition createDirectoryMapStore (path : string) (w : FS.t)
    : JS.Completion (Store.t string string) :=
  isDir <- directoryExists path w ;;
  w' <- (if negb isDir then
           match FS.mkdir_recursive w path with
           | inr w' => JS.Normal w'
           | inl e => JS.Throw (FS.error e)
           end
         else JS.Normal w) ;;
  JS.Normal (Store.mk FS.t w' (DirectoryMapStore.ops path)).

(** The store at [path] is in place: [path] leads to a directory, as it
    does once [createDirectoryMapStore(path)] has returned. *)
Definition mounted (path : string) (w : FS.t) : Prop :=
  directoryExists path w = JS.Normal true.

(** ** The JSON-modeled storage *)

(** [Model<T>] of [@lukekaalim/model], a package that is not among the
    sources, as far as the storage uses it. *)
Module Model.

(** Modelled from the spec: a cast failure carries a message. *)
Record CastFailure : Type := { message : string }.

(** Modelled from the spec: [from(raw)] validates a raw value and answers
    with the typed value or with a cast failure. *)
Record t (Raw T : Type) : Type := { from : Raw -> Result T CastFailure }.
Arguments from {Raw T} _ _.
End Model.

(** A cast failure on its way through a pipeline whose failures are of the
    store's taxonomy. *)
Definition castFailure (f : Model.CastFailure) : Failure :=
  CastFailure (Model.message f).

Module JSONModeledStorage.
Section JSONModeledStorage.
(** [JSON.parse] and [JSON.stringify(v, null, 3)] are taken as given:
    [Json] is what a parse yields, a parse may throw, and
    stringification may yield [undefined] ([None]). *)
Context {Json St Key Value : Type}.
Variable JSON_parse : string -> JS.Completion Json.
Variable mapStore : STDMapStore.t St string string.
Variable valueModel : Model.t Json Value.
Variable keyModel : Model.t string Key.
Variable stringFromKey : Key -> string.
Variable stringFromValue : Value -> string.

(** The loop of [list]: [keys] collects the validated keys, the first
    invalid one ends the loop with a failure. *)
Fixpoint validateKeys (keys : list Key) (stringKeys : list string)
    : Result (list Key) Failure :=
  match stringKeys with
  | [] => succeed keys
  | stringKey :: rest =>
      match Model.from keyModel stringKey with
      | failure f => fail (InternalFailure (JS.newError (Model.message f)))
      | success key => validateKeys (keys ++ [key]) rest
      end
  end.

Definition list_ (s : St) : JS.Completion (Result (list Key) Failure) :=
  listed <- STDMapStore.list_ mapStore s ;;
  c <- chain.then_ listed (fun stringKeys =>
         JS.Normal (validateKeys [] stringKeys)) ;;
  JS.Normal (chain.result c).

Definition read (key : Key) (s : St) : JS.Completion (Result Value Failure) :=
  got <- STDMapStore.read mapStore (stringFromKey key) s ;;
  c1 <- chain.then_ got (fun content =>
          parsed <- JSON_parse content ;;
          JS.Normal (succeed parsed)) ;;
  c2 <- chain.then_ c1 (fun value =>
          JS.Normal (match Model.from valueModel value with
                     | success v => success v
                     | failure f => failure (castFailure f)
                     end)) ;;
  c3 <- chain.catch c2 (fun failure =>
          match failure with
          | CastFailure message =>
              JS.Normal (fail (InternalFailure (JS.newError message)))
          | InternalFailure _ | NotFound => JS.Normal (fail failure)
          end) ;;
  JS.Normal (chain.result c3).

Definition write (key : Key) (value : Value) (s : St)
    : St * JS.Completion (Result unit Failure) :=
  STDMapStore.write mapStore (stringFromKey key) (stringFromValue value) s.

Definition destroy (key : Key) (s : St)
    : St * JS.Completion (Result unit Failure) :=
  STDMapStore.destroy mapStore (stringFromKey key) s.

Definition ops : STDMapStore.t St Key Value :=
  {| STDMapStore.list_ := list_; STDMapStore.read := read;
     STDMapStore.write := write; STDMapStore.destroy := destroy |}.
End JSONModeledStorage.
End JSONModeledStorage.

(** [stringKey] passes the key model as [key]. *)
Definition validates {Key : Type} (keyModel : Model.t string Key)
    (stringKey : string) (key : Key) : Prop :=
  Model.from keyModel stringKey = success key.

(** The default arguments of [createJSONModeledStorage]. *)
Definition defaultStringFromKey (k : string) : string := k.

(** [JSON.stringify(v, null, 3) || '']: [undefined] and the empty string
    are falsy. *)
Definition defaultStringFromValue {Value : Type}
    (JSON_stringify : Value -> option string) (v : Value) : string :=
  match JSON_stringify v with
  | Some text => if bool_decide (text = "") then "" else text
  | None => ""
  end.

(** ** The key-transform combinators *)

Module transformKey.
Section transformKey.
Context {St K TK V : Type}.
Variable transformKey : K -> TK.
Variable untransformKey : TK -> K.
Variable mapStore : STDMapStore.t St TK V.

Definition list_ (s : St) : JS.Completion (Result (list K) Failure) :=
  listed <- STDMapStore.list_ mapStore s ;;
  JS.Normal (handleResult listed
    (fun keys => succeed (untransformKey <$> keys))
    (fun failure => fail failure)).

Definition read (key : K) (s : St) : JS.Completion (Result V Failure) :=
  STDMapStore.read mapStore (transformKey key) s.

Definition write (key : K) (value : V) (s : St)
    : St * JS.Completion (Result unit Failure) :=
  STDMapStore.write mapStore (transformKey key) value s.

Definition destroy (key : K) (s : St)
    : St * JS.Completion (Result unit Failure) :=
  STDMapStore.destroy mapStore (transformKey key) s.

Definition ops : STDMapStore.t St K V :=
  {| STDMapStore.list_ := list_; STDMapStore.read := read;
     STDMapStore.write := write; STDMapStore.destroy := destroy |}.
End transformKey.
End transformKey.

(** The two key functions of [transformKeyWithFileExtension]:
    [key => `${key}.${fileExtension}`] and
    [key => key.slice(0, 0 - (fileExtension.length + 1))]. *)
Module FileExtension.
Definition forward (fileExtension key : string) : string :=
  key +:+ "." +:+ fileExtension.
Definition backward (fileExtension key : string) : string :=
  JS.slice key 0 (Some (0 - (JS.strlen fileExtension + 1))).
End FileExtension.

Definition transformKeyWithFileExtension {St V : Type} (fileExtension : string)
    (storage : STDMapStore.t St string V) : STDMapStore.t St string V :=
  transformKey.ops (FileExtension.forward fileExtension)
    (FileExtension.backward fileExtension) storage.

(** The two key functions of [transformKeyWithNamespace]:
    [key => `${namespace}/${key}`] and
    [key => key.slice(namespace.length + 1)]. *)
Module Namespace.
Definition forward (namespace key : string) : string :=
  namespace +:+ "/" +:+ key.
Definition backward (namespace key : string) : string :=
  JS.slice key (JS.strlen namespace + 1) None.
End Namespace.

Definition transformKeyWithNamespace {St V : Type} (namespace : string)
    (storage : STDMapStore.t St string V) : STDMapStore.t St string V :=
  transformKey.ops (Namespace.forward namespace)
    (Namespace.backward namespace) storage.

(** ** The factory *)

(** [Config] of [../models/config], a file that is not among the sources,
    as far as the factory reads it. *)
Module Config.

(** Modelled from the spec: [config.storage] is a variant record selected
    by [type]: ['memory'] has no parameters, ['local-json'] has the
    directory [dir], ['s3-json'] has [creds] and [bucketName]. The record
    holds the fields side by side, and [type] is whatever string the
    configuration carries, so that an unknown variant can be told. *)
Record storage_ (Creds : Type) : Type := {
  type : string;
  dir : string;
  creds : Creds;
  bucketName : string;
}.
Arguments type {Creds} _.
Arguments dir {Creds} _.
Arguments creds {Creds} _.
Arguments bucketName {Creds} _.

(** Modelled from the spec: the configuration, of which the factory reads
    [storage]. *)
Record t (Creds : Type) : Type := { storage : storage_ Creds }.
Arguments storage {Creds} _.
End Config.

Section Factory.
(** [createS3Storage] of [./storage/s3Storage] is consumed as an opaque
    constructor of a string store; [JSON.parse] and [JSON.stringify] as
    above. *)
Context {Creds Json Value : Type}.
Variable createS3Storage : Creds -> string -> JS.Completion (Store.t string string).
Variable JSON_parse : string -> JS.Completion Json.
Variable JSON_stringify : Value -> option string.

(** [createJSONModeledStorage(mapStore, valueModel, keyModel)] with the
    two serializers left to their defaults. *)
Definition createJSONModeledStorage {St : Type}
    (mapStore : STDMapStore.t St string string)
    (valueModel : Model.t Json Value) (keyModel : Model.t string string)
    : STDMapStore.t St string Value :=
  JSONModeledStorage.ops JSON_parse mapStore valueModel keyModel
    defaultStringFromKey (defaultStringFromValue JSON_stringify).

Definition createModelMapStore (config : Config.t Creds)
    (valueModel : Model.t Json Value) (keyModel : Model.t string string)
    (namespace : string) (w : FS.t) : JS.Completion (Store.t string Value) :=
  let storage := Config.storage config in
  if bool_decide (Config.type storage = "s3-json") then
    s3 <- createS3Storage (Config.creds storage) (Config.bucketName storage) ;;
    JS.Normal (Store.mk (Store.Backing s3) (Store.state s3)
      (createJSONModeledStorage
         (transformKeyWithNamespace namespace
            (transformKeyWithFileExtension ".json" (Store.api s3)))
         valueModel keyModel))
  else if bool_decide (Config.type storage = "local-json") then
    directory <- createDirectoryMapStore (FS.join (Config.dir storage) namespace) w ;;
    JS.Normal (Store.mk (Store.Backing directory) (Store.state directory)
      (createJSONModeledStorage
         (transformKeyWithFileExtension ".json" (Store.api directory))
         valueModel keyModel))
  else if bool_decide (Config.type storage = "memory") then
    JS.Normal createMemoryMapStore
  else
    JS.Throw (JS.newError ("Unknown storage type: " +:+ Config.type storage)).
End Factory.

(** ** Running a store *)

(** [write] called for each pair in turn, one call completing before the
    next starts. *)
Fixpoint writeAll {St K V : Type} (store : STDMapStore.t St K V)
    (pairs : list (K * V)) (s : St) : St :=
  match pairs with
  | [] => s
  | (key, value) :: rest => writeAll store rest (STDMapStore.write store key value s).1
  end.

(** Small instances to run the operations on. *)
Module Sample.

(** The literal fragment of JSON: a text is parsed when it is one of the
    three literals and is a syntax error otherwise. It stands in for
    [JSON.parse] on the texts used below only; the empty text and a lone
    brace are no JSON for [JSON.parse] either. *)
Inductive Json : Type := JNull | JBool (b : bool).

Definition parseLiteral (text : string) : JS.Completion Json :=
  if bool_decide (text = "null") then JS.Normal JNull
  else if bool_decide (text = "true") then JS.Normal (JBool true)
  else if bool_decide (text = "false") then JS.Normal (JBool false)
  else JS.Throw JS.SyntaxError.

Definition stringifyLiteral (v : Json) : option string :=
  match v with
  | JNull => Some "null"
  | JBool true => Some "true"
  | JBool false => Some "false"
  end.

(** A value model that takes every parsed value as it is, one that takes
    booleans only, and a key model that refuses keys with a space. *)
Definition anyJson : Model.t Json Json :=
  {| Model.from := fun raw => success raw |}.

Definition onlyBool : Model.t Json bool :=
  {| Model.from := fun raw =>
       match raw with
       | JBool b => success b
       | JNull => failure {| Model.message := "not a boolean" |}
       end |}.

Fixpoint hasSpace (s : string) : bool :=
  match s with
  | EmptyString => false
  | String c rest => Ascii.eqb c " "%char || hasSpace rest
  end.

Definition noSpaceKey : Model.t string string :=
  {| Model.from := fun raw =>
       if hasSpace raw
       then failure {| Model.message := "key has a space: " +:+ raw |}
       else success raw |}.

(** A memory store of strings holding the given entries. *)
Definition memoryWith (entries : list (string * string)) : gmap string string :=
  writeAll MemoryMapStore.ops entries Map2.createMap2.

(** The directory store made at [data] on an empty disk. *)
Definition dataStore : JS.Completion (Store.t string string) :=
  createDirectoryMapStore "data" FS.empty.

Definition dataDisk : FS.t :=
  match FS.mkdir_recursive FS.empty "data" with
  | inr w => w
  | inl _ => FS.empty
  end.

(** A bucket constructor that hands out a fresh memory store, and one
    that cannot reach the bucket. *)
Definition memoryBucket (creds : unit) (bucketName : string)
    : JS.Completion (Store.t string string) :=
  JS.Normal createMemoryMapStore.

Definition unreachableBucket (creds : unit) (bucketName : string)
    : JS.Completion (Store.t string string) :=
  JS.Throw (JS.newError ("cannot reach bucket " +:+ bucketName)).

Definition config (type dir : string) : Config.t unit :=
  {| Config.storage :=
       {| Config.type := type; Config.dir := dir;
          Config.creds := tt; Config.bucketName := "atlas" |} |}.

(** Values of which one, [None], is [undefined]: [JSON.stringify] gives
    [undefined] for it, and a model that takes a parsed value for a
    defined one. *)
Definition stringifyMaybe (v : option Json) : option string :=
  match v with
  | Some json => stringifyLiteral json
  | None => None
  end.

Definition definedJson : Model.t Json (option Json) :=
  {| Model.from := fun raw => success (Some raw) |}.

End Sample.

(** ** The REST route ([createQuery], [createHeaders], [createRESTRoute])

    The helpers of the route work on strings and arrays only. An array
    element that is not there is [undefined]: [None]. The [handler] of a
    route pipes streams into the response and is not modelled. *)

Module Route.

(** [s.split(sep)] for a separator of one character: the pieces between
    separators, empty pieces included; the empty string gives one empty
    piece. *)
Fixpoint split (sep : ascii) (s : string) : list string :=
  match s with
  | EmptyString => [EmptyString]
  | String c rest =>
      if Ascii.eqb c sep then EmptyString :: split sep rest
      else match split sep rest with
           | [] => [String c EmptyString]
           | piece :: pieces => String c piece :: pieces
           end
  end.

(** [createQuery(url)]: the second piece of [url.split('?')], or [''] when
    there is none, is cut at [&], and each part at [=]; [key] and [value]
    are the first two pieces of a part. *)
Definition createQuery (url : string) : list (option string * option string) :=
  let queryString :=
    match split "?" url !! 1%nat with
    | Some piece => piece
    | None => ""
    end in
  let keyValueStrings := split "&" queryString in
  (fun keyValueString =>
     let parts := split "=" keyValueString in
     (parts !! 0%nat, parts !! 1%nat)) <$> keyValueStrings.

(** The loop of [createHeaders]: [i < rawHeaders.length/2] is a comparison
    of numbers, true exactly when [2 * i < rawHeaders.length]; [fuel]
    bounds the number of rounds. *)
Fixpoint createHeadersLoop (rawHeaders : list string) (fuel i : nat)
    (headers : list (option string * option string))
    : list (option string * option string) :=
  match fuel with
  | O => headers
  | S fuel' =>
      if (2 * i <? length rawHeaders)%nat then
        let headerName := rawHeaders !! (i * 2)%nat in
        let headerValue := rawHeaders !! (i * 2 + 1)%nat in
        createHeadersLoop rawHeaders fuel' (S i)
          (headers ++ [(headerName, headerValue)])
      else headers
  end.

(** [createHeaders(rawHeaders)]; the loop ends within
    [rawHeaders.length + 1] rounds. *)
Definition createHeaders (rawHeaders : list string)
    : list (option string * option string) :=
  createHeadersLoop rawHeaders (S (length rawHeaders)) 0 [].

(** What [test] reads of an incoming message. *)
Record IncomingMessage : Type := { url : string; method : string }.

(** [test] of [createRESTRoute(path, getResponse, method)]; [method] is
    ['GET'] when the caller leaves it out. *)
Definition test (path method_ : string) (inc : IncomingMessage) : bool :=
  let incPath := split "?" (url inc) !! 0%nat in
  bool_decide (incPath = Some path) && bool_decide (method inc = method_).

(** The character occurs in the string. *)
Fixpoint hasChar (c : ascii) (s : string) : bool :=
  match s with
  | EmptyString => false
  | String x rest => Ascii.eqb x c || hasChar c rest
  end.

(** A string free of the three characters a query is cut at. *)
Definition clean (s : string) : Prop :=
  hasChar "?" s = false /\ hasChar "&" s = false /\ hasChar "=" s = false.

(** The query string that spells the pairs out: [k=v] joined by [&]. *)
Fixpoint queryString (pairs : list (string * string)) : string :=
  match pairs with
  | [] => ""
  | [(key, value)] => key +:+ "=" +:+ value
  | (key, value) :: rest => key +:+ "=" +:+ value +:+ "&" +:+ queryString rest
  end.

(** The raw headers two by two; a name left over at the end has no
    value. *)
Fixpoint pairUp (rawHeaders : list string) : list (option string * option string) :=
  match rawHeaders with
  | [] => []
  | [name] => [(Some name, None)]
  | name :: value :: rest => (Some name, Some value) :: pairUp rest
  end.

(** The names and values of the pairs that are there, in order. *)
Fixpoint flatten (headers : list (option string * option string)) : list string :=
  match headers with
  | [] => []
  | (name, value) :: rest => option_list name ++ option_list value ++ flatten rest
  end.

End Route.

(** * Properties *)

(** ** Strings *)

Lemma length_append (a b : string) :
  String.length (a +:+ b) = (String.length a + String.length b)%nat.
Proof. induction a as [|c a IH]; simpl; [reflexivity | now rewrite IH]. Qed.

Lemma append_assoc (a b c : string) : (a +:+ b) +:+ c = a +:+ (b +:+ c).
Proof.
  induction a as [|x a IH]; [reflexivity |].
  change ((String x a +:+ b) +:+ c) with (String x ((a +:+ b) +:+ c)).
  now rewrite IH.
Qed.

Lemma substring_whole (s : string) :
  String.substring 0 (String.length s) s = s.
Proof. induction s as [|c s IH]; simpl; [reflexivity | now rewrite IH]. Qed.

Lemma substring_after (a b : string) :
  String.substring (String.length a) (String.length b) (a +:+ b) = b.
Proof. induction a as [|c a IH]; simpl; [apply substring_whole | exact IH]. Qed.

Lemma substring_before (a b : string) :
  String.substring 0 (String.length a) (a +:+ b) = a.
Proof.
  induction a as [|c a IH]; simpl.
  - destruct b; reflexivity.
  - now rewrite IH.
Qed.

Lemma substring_past (n m : nat) (s : string) :
  (String.length s <= n)%nat -> String.substring n m s = "".
Proof.
  revert n m. induction s as [|c s IH]; intros n m Hn; simpl in *.
  - destruct n, m; reflexivity.
  - destruct n as [|n]; [lia |]. apply IH. lia.
Qed.

(** [key.slice(n)] drops the first [n] code units, whatever they are. *)
Lemma slice_drops (a b : string) :
  JS.slice (a +:+ b) (JS.strlen a) None = b.
Proof.
  unfold JS.slice, JS.strlen. rewrite length_append.
  destruct (Z.ltb_spec (Z.of_nat (String.length a)) 0) as [Hneg|_]; [lia |].
  destruct (Z.ltb_spec (Z.of_nat (String.length a + String.length b)) 0) as [Hneg|_]; [lia |].
  rewrite Z.min_l by lia. rewrite Z.min_id.
  replace (Z.to_nat (Z.of_nat (String.length a))) with (String.length a) by lia.
  replace (Z.to_nat _) with (String.length b) by lia.
  apply substring_after.
Qed.

(** [key.slice(n)] of a key of at most [n] code units is empty. *)
Lemma slice_short (key : string) (n : Z) :
  JS.strlen key <= n -> JS.slice key n None = "".
Proof.
  unfold JS.slice, JS.strlen. intros Hn.
  destruct (Z.ltb_spec n 0) as [Hneg|_]; [lia |].
  destruct (Z.ltb_spec (Z.of_nat (String.length key)) 0) as [Hneg|_]; [lia |].
  rewrite Z.min_r by lia. rewrite Z.min_id.
  apply substring_past. lia.
Qed.

(** [key.slice(0, -n)] with [n > 0] drops the last [n] code units,
    whatever they are. *)
Lemma slice_chops (a b : string) :
  0 < JS.strlen b -> JS.slice (a +:+ b) 0 (Some (0 - JS.strlen b)) = a.
Proof.
  unfold JS.slice, JS.strlen. rewrite length_append. intros Hb.
  change (0 <? 0) with false. cbv iota.
  destruct (Z.ltb_spec (0 - Z.of_nat (String.length b)) 0) as [_|Hpos]; [| lia].
  set (from := Z.min 0 _). set (count := Z.max _ 0).
  replace (Z.to_nat from) with 0%nat by lia.
  replace (Z.to_nat count) with (String.length a) by lia.
  apply substring_before.
Qed.

(** ** The key functions of the combinators *)

Lemma Namespace_roundtrip (namespace key : string) :
  Namespace.backward namespace (Namespace.forward namespace key) = key.
Proof.
  unfold Namespace.backward, Namespace.forward.
  rewrite <- append_assoc.
  replace (JS.strlen namespace + 1) with (JS.strlen (namespace +:+ "/")).
  - apply slice_drops.
  - unfold JS.strlen. rewrite length_append. simpl. lia.
Qed.

Lemma FileExtension_roundtrip (fileExtension key : string) :
  FileExtension.backward fileExtension (FileExtension.forward fileExtension key) = key.
Proof.
  unfold FileExtension.backward, FileExtension.forward.
  replace (JS.strlen fileExtension + 1) with (JS.strlen ("." +:+ fileExtension)).
  - apply slice_chops. unfold JS.strlen. rewrite length_append. simpl. lia.
  - unfold JS.strlen. rewrite length_append. simpl. lia.
Qed.

(** ** The file system *)

Module FSFacts.
Import FS.

Lemma writes_filesOnly dirOnly data : filesOnly (writes dirOnly data).
Proof.
  split; [reflexivity |].
  intros [[content|inner]|] entries; simpl; destruct dirOnly; discriminate.
Qed.

Lemma unlinks_filesOnly dirOnly : filesOnly (unlinks dirOnly).
Proof.
  split; [reflexivity |].
  intros [[content|inner]|] entries; simpl; destruct dirOnly; discriminate.
Qed.

(** A directory is refused by every such function. *)
Lemma change_refuses_directory f entries names inner :
  filesOnly f ->
  find entries names = inr (Dir inner) ->
  change f entries names = inl EISDIR.
Proof.
  intros [Hdir _]. revert entries.
  induction names as [|name rest IH]; intros entries Hfind; simpl in *.
  - now rewrite Hdir.
  - destruct (entries !! name) as [[content|below]|] eqn:Hname;
      try discriminate.
    + destruct rest; discriminate.
    + destruct rest as [|next rest].
      * now rewrite Hdir.
      * now rewrite (IH below Hfind).
Qed.

(** Directories stay directories when a file is written or removed. *)
Lemma change_keeps_directories f entries names entries' :
  filesOnly f ->
  change f entries names = inr entries' ->
  forall where_ inner,
    find entries where_ = inr (Dir inner) ->
    exists inner', find entries' where_ = inr (Dir inner').
Proof.
  intros [Hdir Hmake]. revert entries entries'.
  induction names as [|name rest IH]; intros entries entries' Hchange.
  - simpl in Hchange. now rewrite Hdir in Hchange.
  - intros [|top below] inner Hfind; [simpl; eauto |].
    simpl in Hfind.
    destruct rest as [|next rest].
    + simpl in Hchange.
      destruct (f (entries !! name)) as [e|[n|]] eqn:Hf; try discriminate;
        injection Hchange as <-; simpl.
      * destruct (decide (name = top)) as [->|Hne].
        -- rewrite lookup_insert_eq.
           destruct (entries !! top) as [[content|d]|] eqn:Htop;
             try discriminate.
           ++ destruct below; discriminate.
           ++ now rewrite Hdir in Hf.
        -- rewrite lookup_insert_ne by done.
           destruct (entries !! top) as [[content|d]|]; try discriminate.
           ++ destruct below; discriminate.
           ++ eauto.
      * destruct (decide (name = top)) as [->|Hne].
        -- destruct (entries !! top) as [[content|d]|] eqn:Htop;
             try discriminate.
           ++ destruct below; discriminate.
           ++ now rewrite Hdir in Hf.
        -- rewrite lookup_delete_ne by done.
           destruct (entries !! top) as [[content|d]|]; try discriminate.
           ++ destruct below; discriminate.
           ++ eauto.
    + change (change f entries (name :: next :: rest)) with
        (match entries !! name with
         | None => inl ENOENT
         | Some (File _) => inl ENOTDIR
         | Some (Dir d) =>
             match change f d (next :: rest) with
             | inl e => inl e
             | inr d' => inr (<[name := Dir d']> entries)
             end
         end) in Hchange.
      destruct (entries !! name) as [[content|d]|] eqn:Hname;
        try discriminate.
      destruct (change f d (next :: rest)) as [e|d'] eqn:Hd;
        try discriminate.
      injection Hchange as <-. simpl.
      destruct (decide (name = top)) as [->|Hne].
      * rewrite lookup_insert_eq. rewrite Hname in Hfind.
        exact (IH d d' Hd below inner Hfind).
      * rewrite lookup_insert_ne by done.
        destruct (entries !! top) as [[content|d0]|]; try discriminate.
        -- destruct below; discriminate.
        -- eauto.
Qed.

(** After a successful write the path leads to the file written. *)
Lemma change_writes_file dirOnly data entries names entries' :
  change (writes dirOnly data) entries names = inr entries' ->
  dirOnly = false /\ find entries' names = inr (File data).
Proof.
  revert entries entries'.
  induction names as [|name rest IH]; intros entries entries' Hchange.
  - discriminate.
  - destruct rest as [|next rest].
    + simpl in Hchange.
      destruct (entries !! name) as [[content|d]|], dirOnly;
        simpl in Hchange; try discriminate;
        injection Hchange as <-; simpl; now rewrite lookup_insert_eq.
    + change (change (writes dirOnly data) entries (name :: next :: rest)) with
        (match entries !! name with
         | None => inl ENOENT
         | Some (File _) => inl ENOTDIR
         | Some (Dir d) =>
             match change (writes dirOnly data) d (next :: rest) with
             | inl e => inl e
             | inr d' => inr (<[name := Dir d']> entries)
             end
         end) in Hchange.
      destruct (entries !! name) as [[content|d]|]; try discriminate.
      destruct (change (writes dirOnly data) d (next :: rest)) as [e|d'] eqn:Hd;
        try discriminate.
      injection Hchange as <-.
      destruct (IH d d' Hd) as [-> Hfile]. split; [reflexivity |].
      change (find (<[name := Dir d']> entries) (name :: next :: rest)) with
        (match <[name := Dir d']> entries !! name with
         | None => inl ENOENT
         | Some (Dir inner) => find inner (next :: rest)
         | Some (File content) => @inl errno node ENOTDIR
         end).
      now rewrite lookup_insert_eq.
Qed.

(** [mkdir -p] ends with a directory at the path. *)
Lemma makeDirectories_makes entries names entries' :
  makeDirectories entries names = inr entries' ->
  exists inner, find entries' names = inr (Dir inner).
Proof.
  revert entries entries'.
  induction names as [|name rest IH]; intros entries entries' Hmk; simpl in *.
  - eauto.
  - destruct (entries !! name) as [[content|d]|].
    + destruct rest; discriminate.
    + destruct (makeDirectories d rest) as [e|d'] eqn:Hd; try discriminate.
      injection Hmk as <-. rewrite lookup_insert_eq. eauto.
    + destruct (makeDirectories ∅ rest) as [e|d'] eqn:Hd; try discriminate.
      injection Hmk as <-. rewrite lookup_insert_eq. eauto.
Qed.

(** *** Paths *)

Lemma append_cons c a b : String c a +:+ b = String c (a +:+ b).
Proof. reflexivity. Qed.

Lemma split_not_nil s : split s <> [].
Proof.
  destruct s as [|c s]; simpl; [discriminate |].
  destruct (Ascii.eqb c "/"); [discriminate |].
  destruct (split s); discriminate.
Qed.

Lemma split_plain s : hasSlash s = false -> split s = [s].
Proof.
  induction s as [|c s IH]; simpl; [reflexivity |].
  intros H. apply orb_false_iff in H as [Hc Hs].
  rewrite Hc, (IH Hs). reflexivity.
Qed.

Lemma split_append_slash a b :
  split (a +:+ "/" +:+ b) = (split a ++ split b)%list.
Proof.
  induction a as [|c a IH].
  - reflexivity.
  - rewrite append_cons. simpl. destruct (Ascii.eqb c "/").
    + now rewrite IH.
    + rewrite IH. destruct (split a) as [|piece pieces] eqn:Hs.
      * now apply split_not_nil in Hs.
      * reflexivity.
Qed.

Lemma normalizeSegments_app allow l1 l2 : forall res,
  normalizeSegments allow res (l1 ++ l2)
  = normalizeSegments allow (normalizeSegments allow res l1) l2.
Proof.
  induction l1 as [|seg l1 IH]; intros res; simpl; [reflexivity |].
  destruct (bool_decide (seg = "") || bool_decide (seg = ".")); [apply IH |].
  destruct (bool_decide (seg = "..")); [| apply IH].
  destruct (bool_decide (List.last res ".." = "..")); apply IH.
Qed.

Lemma normalizeSegments_plain allow res key :
  plainName key -> normalizeSegments allow res [key] = (res ++ [key])%list.
Proof.
  intros (H0 & H1 & H2 & _). simpl.
  rewrite !bool_decide_eq_false_2 by assumption. reflexivity.
Qed.

Lemma walk_app l1 l2 : forall here,
  walk here (l1 ++ l2) = walk (walk here l1) l2.
Proof.
  induction l1 as [|c l1 IH]; intros here; simpl; [reflexivity |].
  destruct (bool_decide (c = "") || bool_decide (c = ".")); [apply IH |].
  destruct (bool_decide (c = "..")); apply IH.
Qed.

Lemma walk_name here c :
  kept c -> c <> ".." -> walk here [c] = (here ++ [c])%list.
Proof.
  intros [H0 H1] H2. simpl.
  rewrite !bool_decide_eq_false_2 by assumption. reflexivity.
Qed.

(** Normalizing a path does not change where it leads. *)
Lemma walk_normalizeSegments allow here l : forall res,
  Forall kept res ->
  (allow = false -> here = [] /\ Forall (fun seg => seg <> "..") res) ->
  walk here (normalizeSegments allow res l) = walk (walk here res) l.
Proof.
  induction l as [|seg l IH]; intros res Hres Habs; simpl; [reflexivity |].
  destruct (bool_decide (seg = "") || bool_decide (seg = ".")) eqn:Hskip;
    [now apply IH |].
  apply orb_false_iff in Hskip as [He Hd].
  apply bool_decide_eq_false in He, Hd.
  case_bool_decide as Hup.
  - subst seg. case_bool_decide as Hlast.
    + destruct allow.
      * rewrite IH.
        -- rewrite walk_app. reflexivity.
        -- apply Forall_app. split; [exact Hres |]. repeat constructor; discriminate.
        -- discriminate.
      * destruct (Habs eq_refl) as [-> Hnoup].
        destruct res as [|r res] using rev_ind.
        -- rewrite IH by (auto). reflexivity.
        -- rewrite last_last in Hlast.
           apply Forall_app in Hnoup as [_ Hr].
           apply Forall_inv in Hr. contradiction.
    + destruct res as [|r res _] using rev_ind; [contradiction |].
      rewrite last_last in Hlast. rewrite removelast_last.
      apply Forall_app in Hres as [Hres Hr]. apply Forall_inv in Hr.
      rewrite IH.
      * rewrite walk_app, (walk_name _ r Hr Hlast), removelast_last. reflexivity.
      * exact Hres.
      * intros Ha. destruct (Habs Ha) as [-> Hnoup]. split; [reflexivity |].
        now apply Forall_app in Hnoup as [? _].
  - rewrite IH.
    + rewrite walk_app, (walk_name _ seg (conj He Hd) Hup). reflexivity.
    + apply Forall_app. split; [exact Hres |]. repeat constructor; assumption.
    + intros Ha. destruct (Habs Ha) as [-> Hnoup]. split; [reflexivity |].
      apply Forall_app. split; [exact Hnoup |]. repeat constructor; assumption.
Qed.

Lemma split_pieces s : Forall (fun piece => hasSlash piece = false) (split s).
Proof.
  induction s as [|c s IH]; simpl; [repeat constructor |].
  destruct (Ascii.eqb c "/") eqn:Hc; [constructor; [reflexivity | exact IH] |].
  destruct (split s) as [|piece pieces]; [repeat constructor; simpl; now rewrite Hc |].
  apply Forall_cons in IH as [Hp Hps].
  constructor; [simpl; now rewrite Hc, Hp | exact Hps].
Qed.

Lemma split_pieces_clean s :
  hasNullByte s = false -> Forall (fun piece => hasNullByte piece = false) (split s).
Proof.
  induction s as [|c s IH]; simpl; [repeat constructor |].
  intros H. apply orb_false_iff in H as [Hc Hs]. specialize (IH Hs).
  destruct (Ascii.eqb c "/"); [constructor; [reflexivity | exact IH] |].
  destruct (split s) as [|piece pieces]; [repeat constructor; simpl; now rewrite Hc |].
  apply Forall_cons in IH as [Hp Hps].
  constructor; [simpl; now rewrite Hc, Hp | exact Hps].
Qed.

(** What normalization keeps are pieces of the path, or [..]. *)
Lemma normalizeSegments_pieces (P : string -> Prop) allow l : forall res,
  P ".." -> Forall P res -> Forall P l ->
  Forall (fun seg => kept seg /\ P seg) res ->
  Forall (fun seg => kept seg /\ P seg) (normalizeSegments allow res l).
Proof.
  induction l as [|seg l IH]; intros res Hup Hres Hl Hk; simpl; [exact Hk |].
  apply Forall_cons in Hl as [Hseg Hl].
  destruct (bool_decide (seg = "") || bool_decide (seg = ".")) eqn:Hskip;
    [now apply IH |].
  apply orb_false_iff in Hskip as [He Hd].
  apply bool_decide_eq_false in He, Hd.
  case_bool_decide as Hdots.
  - case_bool_decide as Hlast.
    + destruct allow; [| now apply IH].
      apply IH; try assumption.
      * apply Forall_app. split; [exact Hres |]. now repeat constructor.
      * apply Forall_app. split; [exact Hk |]. subst seg. now repeat constructor.
    + destruct res as [|r res _] using rev_ind; [contradiction |].
      rewrite removelast_last.
      apply Forall_app in Hres as [Hres _]. apply Forall_app in Hk as [Hk _].
      now apply IH.
  - apply IH; try assumption.
    + apply Forall_app. split; [exact Hres |]. now repeat constructor.
    + apply Forall_app. split; [exact Hk |]. now repeat constructor.
Qed.

Lemma hasNullByte_append a b :
  hasNullByte (a +:+ b) = hasNullByte a || hasNullByte b.
Proof.
  induction a as [|c a IH]; [reflexivity |].
  rewrite append_cons. simpl. rewrite IH. now rewrite orb_assoc.
Qed.

Lemma endsWithSlash_append a b :
  b <> "" -> endsWithSlash (a +:+ b) = endsWithSlash b.
Proof.
  intros Hb. induction a as [|c a IH]; [reflexivity |].
  rewrite append_cons. simpl. rewrite IH.
  destruct (a +:+ b) eqn:Hab; [| reflexivity].
  destruct a; [| discriminate]. simpl in Hab. contradiction.
Qed.

Lemma endsWithSlash_plain s : hasSlash s = false -> endsWithSlash s = false.
Proof.
  induction s as [|c s IH]; simpl; [reflexivity |].
  intros H. apply orb_false_iff in H as [Hc Hs].
  destruct s; [exact Hc | now apply IH].
Qed.

Lemma split_joinSegments segs :
  Forall (fun seg => hasSlash seg = false) segs -> segs <> [] ->
  split (joinSegments segs) = segs.
Proof.
  induction segs as [|seg segs IH]; intros Hall Hne; [contradiction |].
  apply Forall_cons in Hall as [Hseg Hall].
  destruct segs as [|next segs]; [now apply split_plain |].
  change (joinSegments (seg :: next :: segs))
    with (seg +:+ "/" +:+ joinSegments (next :: segs)).
  rewrite split_append_slash, (split_plain seg Hseg), IH by (auto; discriminate).
  reflexivity.
Qed.

Lemma hasNullByte_joinSegments segs :
  Forall (fun seg => hasNullByte seg = false) segs ->
  hasNullByte (joinSegments segs) = false.
Proof.
  induction segs as [|seg segs IH]; intros Hall; [reflexivity |].
  apply Forall_cons in Hall as [Hseg Hall].
  destruct segs as [|next segs]; [exact Hseg |].
  change (joinSegments (seg :: next :: segs))
    with (seg +:+ "/" +:+ joinSegments (next :: segs)).
  rewrite !hasNullByte_append, Hseg, (IH Hall). reflexivity.
Qed.

(** Joined segments begin like the first of them. *)
Lemma joinSegments_head c seg segs :
  exists tail, joinSegments (String c seg :: segs) = String c tail.
Proof. destruct segs; simpl; eauto. Qed.

Lemma last_after {A} (a : A) (l : list A) (d : A) :
  l <> [] -> List.last (a :: l) d = List.last l d.
Proof. destruct l; [contradiction | reflexivity]. Qed.

Lemma locate_join (w : t) (path key : string) names dirOnly :
  locate w path = inr (names, dirOnly) ->
  plainName key ->
  locate w (join path key) = inr ((names ++ [key])%list, false).
Proof.
  intros Hloc Hkey. pose proof Hkey as (Hne & Hdot & Hdots & Hslash & Hnul).
  unfold locate in Hloc.
  destruct (hasNullByte path) eqn:Hpnul; [discriminate |].
  case_bool_decide as Hpath; [discriminate |].
  injection Hloc as <- _.
  set (start := if isAbsolute path then [] else cwd w).
  set (N := normalizeSegments (negb (isAbsolute path)) [] (split path)).
  assert (HN : Forall (fun seg => kept seg /\
                 (hasSlash seg = false /\ hasNullByte seg = false)) N).
  { apply normalizeSegments_pieces; [split; reflexivity | constructor | | constructor].
    apply Forall_and. split; [apply split_pieces | now apply split_pieces_clean]. }
  assert (Hsegs : Forall (fun seg => kept seg /\
                    (hasSlash seg = false /\ hasNullByte seg = false)) (N ++ [key])).
  { apply Forall_app. split; [exact HN |]. repeat constructor; assumption. }
  (* the joined path *)
  assert (Hjoin : join path key
            = if isAbsolute path then "/" +:+ joinSegments (N ++ [key])
              else joinSegments (N ++ [key])).
  { unfold join. rewrite !bool_decide_eq_false_2 by assumption.
    unfold normalize. rewrite bool_decide_eq_false_2
      by (destruct path; [contradiction | discriminate]).
    assert (Habs : isAbsolute (path +:+ "/" +:+ key) = isAbsolute path)
      by (destruct path; [contradiction | reflexivity]).
    rewrite Habs, split_append_slash, (split_plain key Hslash).
    rewrite normalizeSegments_app, (normalizeSegments_plain _ _ key Hkey).
    fold N.
    rewrite endsWithSlash_append by (intros H; destruct key; [contradiction | discriminate]).
    change ("/" +:+ key) with (String "/" key). simpl endsWithSlash.
    destruct key as [|k key]; [contradiction |].
    rewrite (endsWithSlash_plain _ Hslash).
    rewrite bool_decide_eq_false_2; [reflexivity |].
    destruct N as [|[|c n] N']; simpl app.
    - discriminate.
    - apply Forall_cons in HN as [[[? _] _] _]. contradiction.
    - destruct (joinSegments_head c n (N' ++ [String k key])) as [tail ->].
      discriminate. }
  assert (Hnonil : (N ++ [key])%list <> []) by (destruct N; discriminate).
  assert (Hsplit : split (joinSegments (N ++ [key])) = (N ++ [key])%list).
  { apply split_joinSegments; [| exact Hnonil].
    eapply Forall_impl; [exact Hsegs |]. now intros seg (_ & ? & _). }
  assert (Hclean : hasNullByte (joinSegments (N ++ [key])) = false).
  { apply hasNullByte_joinSegments.
    eapply Forall_impl; [exact Hsegs |]. now intros seg (_ & _ & ?). }
  assert (Hhead : exists c tail, joinSegments (N ++ [key]) = String c tail /\
                                 Ascii.eqb c "/" = false).
  { destruct (N ++ [key])%list as [|[|c seg] segs] eqn:Heq; [contradiction | |].
    - apply Forall_cons in Hsegs as [[[? _] _] _]. contradiction.
    - destruct (joinSegments_head c seg segs) as [tail ->].
      exists c, tail. split; [reflexivity |].
      apply Forall_cons in Hsegs as [(_ & Hs & _) _]. simpl in Hs.
      now apply orb_false_iff in Hs as [? _]. }
  destruct Hhead as (c & tail & Hbody & Hc).
  assert (Hwalk : walk start (N ++ [key]) = (walk start (split path) ++ [key])%list).
  { rewrite walk_app. unfold N.
    rewrite walk_normalizeSegments.
    - simpl walk at 2. apply walk_name; [split |]; assumption.
    - constructor.
    - unfold start. destruct (isAbsolute path); [| discriminate].
      intros _. split; [reflexivity | constructor]. }
  assert (Hlast : List.last (N ++ [key]) "" = key) by apply last_last.
  assert (Hfile : bool_decide (key = "") || bool_decide (key = ".") = false).
  { now rewrite !bool_decide_eq_false_2 by assumption. }
  unfold locate, wantsDirectory. rewrite Hjoin. fold start.
  destruct (isAbsolute path) eqn:Habs.
  - change ("/" +:+ joinSegments (N ++ [key]))
      with (String "/" (joinSegments (N ++ [key]))).
    simpl hasNullByte. rewrite Hclean.
    rewrite bool_decide_eq_false_2 by discriminate.
    simpl isAbsolute. simpl split. rewrite Hsplit.
    change (walk [] ("" :: N ++ [key])) with (walk [] (N ++ [key])).
    replace (List.last ("" :: N ++ [key]) "") with key.
    + rewrite Hfile. unfold start in Hwalk. now rewrite Hwalk.
    + now rewrite (last_after "" _ "" Hnonil).
  - rewrite Hclean, Hsplit, Hlast, Hfile, Hbody. simpl isAbsolute. rewrite Hc.
    rewrite bool_decide_eq_false_2 by discriminate.
    unfold start in Hwalk. now rewrite Hwalk.
Qed.

Lemma find_into_directory entries names inner key :
  find entries names = inr (Dir inner) ->
  find entries (names ++ [key])
  = match inner !! key with
    | None => inl ENOENT
    | Some n => inr n
    end.
Proof.
  revert entries. induction names as [|name rest IH]; intros entries Hfind;
    simpl in *.
  - injection Hfind as ->. now destruct (inner !! key) as [[content|d]|].
  - destruct (entries !! name) as [[content|d]|]; try discriminate.
    + destruct rest; discriminate.
    + now apply IH.
Qed.

(** An entry can be changed in a directory that is there. *)
Lemma change_into_directory f entries names inner key r :
  find entries names = inr (Dir inner) ->
  f (inner !! key) = inr r ->
  exists entries', change f entries (names ++ [key]) = inr entries'.
Proof.
  intros Hfind Hf. revert entries Hfind.
  induction names as [|name rest IH]; intros entries Hfind.
  - simpl in Hfind. injection Hfind as ->. simpl. rewrite Hf.
    destruct r; eauto.
  - simpl in Hfind.
    destruct (entries !! name) as [[content|d]|] eqn:Hname; try discriminate.
    { destruct rest; discriminate. }
    destruct (IH d Hfind) as [d' Hd']. exists (<[name := Dir d']> entries).
    simpl. destruct (rest ++ [key])%list eqn:Hr;
      [destruct rest; discriminate |].
    now rewrite Hname, Hd'.
Qed.

End FSFacts.

(** ** The directory store *)

Section DirectoryFacts.
Import FS FSFacts.
Variable path : string.

Lemma mounted_directory (w : FS.t) :
  mounted path w ->
  exists names dirOnly inner,
    locate w path = inr (names, dirOnly) /\
    find (root w) names = inr (Dir inner).
Proof.
  unfold mounted, directoryExists, stat.
  destruct (locate w path) as [e|[names dirOnly]];
    [destruct (isMissing _); discriminate |].
  destruct (find (root w) names) as [e|[content|inner]] eqn:Hfind.
  - destruct (isMissing _); discriminate.
  - destruct dirOnly; [| discriminate].
    destruct (isMissing _); discriminate.
  - eauto.
Qed.

Lemma directory_mounted (w : FS.t) names dirOnly inner :
  locate w path = inr (names, dirOnly) ->
  find (root w) names = inr (Dir inner) ->
  mounted path w.
Proof.
  unfold mounted, directoryExists, stat. intros -> ->. reflexivity.
Qed.

(** [destroy] asks the system to unlink the directory of the store, which
    the system refuses: nothing is removed, whatever the key. *)
Lemma destroy_mounted (key : string) (w : FS.t) :
  mounted path w ->
  DirectoryMapStore.destroy path key w =
    (w, JS.Normal (failure (InternalFailure (error EISDIR)))).
Proof.
  intros Hm. destruct (mounted_directory w Hm) as (names & dirOnly & inner & Hloc & Hfind).
  unfold DirectoryMapStore.destroy, unlink. rewrite Hloc.
  rewrite (change_refuses_directory (unlinks dirOnly) _ _ inner
             (unlinks_filesOnly dirOnly) Hfind).
  reflexivity.
Qed.

(** Writing leaves the store in place. *)
Lemma write_mounted (key value : string) (w : FS.t) :
  mounted path w ->
  mounted path (DirectoryMapStore.write path key value w).1.
Proof.
  intros Hm. unfold DirectoryMapStore.write, writeFile.
  destruct (locate w (join path key)) as [e|[names dirOnly]]; [exact Hm |].
  destruct (change (writes dirOnly value) (root w) names) as [e|root'] eqn:Hch;
    [exact Hm |].
  destruct (mounted_directory w Hm) as (here & d & inner & Hloc & Hfind).
  destruct (change_keeps_directories _ _ _ _ (writes_filesOnly dirOnly value)
              Hch here inner Hfind) as [inner' Hfind'].
  simpl. eapply directory_mounted; [| exact Hfind'].
  exact Hloc.
Qed.

(** What was written is read back. *)
Lemma write_read (key value : string) (w w1 : FS.t) :
  DirectoryMapStore.write path key value w = (w1, JS.Normal (success tt)) ->
  DirectoryMapStore.read path key w1 = JS.Normal (success value).
Proof.
  unfold DirectoryMapStore.write, DirectoryMapStore.read, writeFile, readFile.
  destruct (locate w (join path key)) as [e|[names dirOnly]] eqn:Hloc;
    [discriminate |].
  destruct (change (writes dirOnly value) (root w) names) as [e|root'] eqn:Hch;
    [discriminate |].
  intros [= <-].
  destruct (change_writes_file _ _ _ _ _ Hch) as [-> Hfile].
  assert (Hloc' : locate {| root := root'; cwd := cwd w |} (join path key)
                  = inr (names, false)) by exact Hloc.
  rewrite Hloc'. simpl. rewrite Hfile. reflexivity.
Qed.

(** The constructor returns the operations over a file system in which
    the store is in place. *)
Lemma created_mounted (w : FS.t) (store : Store.t string string) :
  createDirectoryMapStore path w = JS.Normal store ->
  exists w', store = Store.mk FS.t w' (DirectoryMapStore.ops path) /\ mounted path w'.
Proof.
  unfold createDirectoryMapStore.
  destruct (directoryExists path w) as [[|]|e] eqn:Hex; simpl; [| | discriminate].
  - intros [= <-]. eauto.
  - unfold mkdir_recursive.
    destruct (locate w path) as [e|[names dirOnly]] eqn:Hloc; [discriminate |].
    destruct (makeDirectories (root w) names) as [e|root'] eqn:Hmk;
      [discriminate |].
    simpl. intros [= <-]. eexists; split; [reflexivity |].
    destruct (makeDirectories_makes _ _ _ Hmk) as [inner Hfind].
    eapply directory_mounted; [| exact Hfind]. exact Hloc.
Qed.

End DirectoryFacts.

(** ** The memory store *)

Section MemoryFacts.
Context {K V : Type} `{Countable K}.
Implicit Types (m : gmap K V) (key : K) (value : V).

Lemma memory_write_read key value m :
  MemoryMapStore.read key (MemoryMapStore.write key value m).1
  = JS.Normal (success value).
Proof.
  unfold MemoryMapStore.read, MemoryMapStore.write, Map2.set, Map2.get. simpl.
  now rewrite lookup_insert_eq.
Qed.

Lemma memory_write_destroy_read key value m :
  let m1 := (MemoryMapStore.write key value m).1 in
  (MemoryMapStore.destroy key m1).2 = JS.Normal (success tt) /\
  MemoryMapStore.read key (MemoryMapStore.destroy key m1).1
  = JS.Normal (failure NotFound).
Proof.
  unfold MemoryMapStore.read, MemoryMapStore.write, MemoryMapStore.destroy,
    Map2.set, Map2.get, Map2.delete. simpl.
  rewrite lookup_insert_eq. simpl. now rewrite lookup_delete_eq.
Qed.

End MemoryFacts.

(** ** Claims on the directory store *)

(** The store made at [data] on an empty disk is the directory store over
    a disk that holds the empty directory [data]. *)
Example dataStore_created :
  Sample.dataStore
  = JS.Normal (Store.mk FS.t Sample.dataDisk (DirectoryMapStore.ops "data")) /\
  DirectoryMapStore.list_ "data" Sample.dataDisk = JS.Normal (success []).
Proof. split; reflexivity. Qed.

(** C1. The claim is that [destroy(k)] removes the file of a written key
    [k] and nothing else. The code does not: in a store that is in place,
    after [write(k, v)] has succeeded, [destroy(k)] is answered with an
    internal failure (the system refuses to unlink the directory of the
    store, which is what the call names), the file system is as it was, and
    [read(k)] still yields [v]. *)
Theorem destroy_spares_written_file (path key value : string) (w w1 : FS.t) :
  mounted path w ->
  DirectoryMapStore.write path key value w = (w1, JS.Normal (success tt)) ->
  DirectoryMapStore.destroy path key w1
  = (w1, JS.Normal (failure (InternalFailure (FS.error FS.EISDIR)))) /\
  FS.readFile w1 (FS.join path key) = inr value.
Proof.
  intros Hm Hw.
  assert (Hm1 : mounted path w1).
  { pose proof (write_mounted path key value w Hm) as Hm1.
    now rewrite Hw in Hm1. }
  split; [now apply destroy_mounted |].
  pose proof (write_read path key value w w1 Hw) as Hr.
  unfold DirectoryMapStore.read in Hr.
  destruct (FS.readFile w1 (FS.join path key)) as [e|content].
  - destruct (isMissing _); discriminate.
  - now injection Hr as ->.
Qed.

Lemma destroy_spares_written_file_witness :
  let w1 := (DirectoryMapStore.write "data" "a" "hello" Sample.dataDisk).1 in
  DirectoryMapStore.destroy "data" "a" w1
  = (w1, JS.Normal (failure (InternalFailure (FS.error FS.EISDIR)))) /\
  FS.readFile w1 (FS.join "data" "a") = inr "hello".
Proof.
  apply (destroy_spares_written_file "data" "a" "hello" Sample.dataDisk);
    reflexivity.
Defined.

(** C2. The claim is that [destroy("missing")] on a freshly made store is
    answered with not-found and touches nothing. The code touches nothing
    indeed (the store object is as it was), but the answer is an internal
    failure: the call names the directory of the store, not the file of
    the key, and the system refuses to unlink a directory. *)
Theorem destroy_missing_on_fresh_store (path : string) (w : FS.t)
    (store : Store.t string string) :
  createDirectoryMapStore path w = JS.Normal store ->
  Store.destroy store "missing"
  = (store, JS.Normal (failure (InternalFailure (FS.error FS.EISDIR)))).
Proof.
  intros Hc. destruct (created_mounted path w store Hc) as (w' & -> & Hm).
  unfold Store.destroy. simpl.
  now rewrite (destroy_mounted path "missing" w' Hm).
Qed.

Lemma destroy_missing_on_fresh_store_witness :
  Store.destroy (Store.mk FS.t Sample.dataDisk (DirectoryMapStore.ops "data")) "missing"
  = (Store.mk FS.t Sample.dataDisk (DirectoryMapStore.ops "data"),
     JS.Normal (failure (InternalFailure (FS.error FS.EISDIR)))).
Proof.
  apply (destroy_missing_on_fresh_store "data" FS.empty). reflexivity.
Defined.

(** C3. The claim is that [write(k, v)], [destroy(k)], [read(k)] ends with
    not-found on every backend. On the directory store it does not: when
    the write has succeeded, [destroy] fails and the [read] that follows
    still succeeds with [v]. (On the memory store the sequence does end
    with not-found: [memory_write_destroy_read].) *)
Theorem directory_write_destroy_read (path key value : string) (w w1 : FS.t) :
  mounted path w ->
  DirectoryMapStore.write path key value w = (w1, JS.Normal (success tt)) ->
  let after := DirectoryMapStore.destroy path key w1 in
  (exists error, after.2 = JS.Normal (failure (InternalFailure error))) /\
  DirectoryMapStore.read path key after.1 = JS.Normal (success value).
Proof.
  intros Hm Hw.
  assert (Hm1 : mounted path w1).
  { pose proof (write_mounted path key value w Hm) as Hm1.
    now rewrite Hw in Hm1. }
  cbv zeta. rewrite (destroy_mounted path key w1 Hm1). simpl.
  split; [eauto |]. exact (write_read path key value w w1 Hw).
Qed.

Lemma directory_write_destroy_read_witness :
  let w1 := (DirectoryMapStore.write "data" "a" "hello" Sample.dataDisk).1 in
  let after := DirectoryMapStore.destroy "data" "a" w1 in
  (exists error, after.2 = JS.Normal (failure (InternalFailure error))) /\
  DirectoryMapStore.read "data" "a" after.1 = JS.Normal (success "hello").
Proof.
  apply (directory_write_destroy_read "data" "a" "hello" Sample.dataDisk);
    reflexivity.
Defined.

(** C4 as stated fails on the directory store: the empty key names the
    directory of the store itself ([join("data", "")] is ["data"]), so
    [write("", "hello")] is refused and the [read("")] that follows is an
    internal failure, not ["hello"]. *)
Lemma roundtrip_fails_for_empty_key :
  mounted "data" Sample.dataDisk /\
  let after := DirectoryMapStore.write "data" "" "hello" Sample.dataDisk in
  after.2 = JS.Normal (failure (InternalFailure (FS.error FS.EISDIR))) /\
  DirectoryMapStore.read "data" "" after.1
  = JS.Normal (failure (InternalFailure (FS.error FS.EISDIR))) /\
  DirectoryMapStore.read "data" "" after.1 <> JS.Normal (success "hello").
Proof. repeat split; try reflexivity. discriminate. Qed.

(** C4, amended. On the memory store [write(k, v)] succeeds and the
    [read(k)] that follows returns [v]. On the directory store, over a
    disk of directories and regular files, whatever the path of the store
    and the key, whenever [write(k, v)] returns success, the [read(k)] that
    follows returns [v]. The values are the texts of this embedding, which
    hold no unpaired surrogate: such a text is what the utf-8 written for
    it decodes to. Nothing is said of when the write succeeds: the system
    can refuse the file, as it does for the empty key, or for a name that
    is too long for it. *)
Theorem write_then_read :
  (forall (K V : Type) `(Countable K) (m : gmap K V) (key : K) (value : V),
      (MemoryMapStore.write key value m).2 = JS.Normal (success tt) /\
      MemoryMapStore.read key (MemoryMapStore.write key value m).1
      = JS.Normal (success value)) /\
  (forall (path key value : string) (w w1 : FS.t),
      DirectoryMapStore.write path key value w = (w1, JS.Normal (success tt)) ->
      DirectoryMapStore.read path key w1 = JS.Normal (success value)).
Proof.
  split.
  - intros K V ? ? m key value. split; [reflexivity | apply memory_write_read].
  - intros path key value w w1. apply write_read.
Qed.

Lemma write_then_read_witness :
  MemoryMapStore.read "a" (MemoryMapStore.write "a" "hello" (∅ : gmap string string)).1
  = JS.Normal (success "hello") /\
  DirectoryMapStore.read "data" "a"
    (DirectoryMapStore.write "data" "a" "hello" Sample.dataDisk).1
  = JS.Normal (success "hello").
Proof.
  destruct write_then_read as (Hmemory & Hdirectory). split.
  - apply Hmemory.
  - apply (Hdirectory "data" "a" "hello" Sample.dataDisk). reflexivity.
Defined.

(** ** The JSON-modeled storage *)

Section JSONFacts.
Context {Json St Key Value : Type}.
Variable JSON_parse : string -> JS.Completion Json.
Variable mapStore : STDMapStore.t St string string.
Variable valueModel : Model.t Json Value.
Variable keyModel : Model.t string Key.
Variable stringFromKey : Key -> string.

(** The loop of [list] walks over a prefix of valid keys collecting what
    the model made of them. *)
Lemma validateKeys_prefix (good : list string) (keys : list Key) :
  Forall2 (validates keyModel) good keys ->
  forall collected rest,
    JSONModeledStorage.validateKeys keyModel collected (good ++ rest)
    = JSONModeledStorage.validateKeys keyModel (collected ++ keys) rest.
Proof.
  induction 1 as [|stringKey key good keys Hkey _ IH]; intros collected rest.
  - now rewrite app_nil_r.
  - simpl. rewrite Hkey. rewrite IH. now rewrite <- app_assoc.
Qed.

(** Among keys of which one is invalid there is a first invalid one. *)
Lemma first_invalid (stringKeys : list string) (bad : string)
    (f : Model.CastFailure) :
  bad ∈ stringKeys ->
  Model.from keyModel bad = failure f ->
  exists good keys first rest f',
    stringKeys = (good ++ first :: rest)%list /\
    Forall2 (validates keyModel) good keys /\
    Model.from keyModel first = failure f'.
Proof.
  induction stringKeys as [|stringKey stringKeys IH]; intros Hin Hbad.
  - now apply elem_of_nil in Hin.
  - destruct (Model.from keyModel stringKey) as [key|f0] eqn:Hkey.
    + apply elem_of_cons in Hin as [->|Hin]; [congruence |].
      destruct (IH Hin Hbad) as (good & keys & first & rest & f' & -> & Hgood & Hfirst).
      exists (stringKey :: good), (key :: keys), first, rest, f'.
      split; [reflexivity |]. split; [| exact Hfirst].
      constructor; [exact Hkey | exact Hgood].
    + exists [], [], stringKey, stringKeys, f0.
      split; [reflexivity |]. split; [constructor | exact Hkey].
Qed.

(** What [read] answers, by what the inner store, the parser and the
    value model do. *)
Lemma read_outcomes (key : Key) (s : St) :
  JSONModeledStorage.read JSON_parse mapStore valueModel stringFromKey key s
  = match STDMapStore.read mapStore (stringFromKey key) s with
    | JS.Throw e => JS.Throw e
    | JS.Normal (failure (CastFailure message)) =>
        JS.Normal (failure (InternalFailure (JS.newError message)))
    | JS.Normal (failure f) => JS.Normal (failure f)
    | JS.Normal (success content) =>
        match JSON_parse content with
        | JS.Throw e => JS.Throw e
        | JS.Normal parsed =>
            match Model.from valueModel parsed with
            | success value => JS.Normal (success value)
            | failure f =>
                JS.Normal (failure (InternalFailure (JS.newError (Model.message f))))
            end
        end
    end.
Proof.
  unfold JSONModeledStorage.read.
  destruct (STDMapStore.read mapStore (stringFromKey key) s) as [[content|f]|e];
    simpl; [| destruct f; reflexivity | reflexivity].
  destruct (JSON_parse content) as [parsed|e]; simpl; [| reflexivity].
  destruct (Model.from valueModel parsed); reflexivity.
Qed.
End JSONFacts.

(** C6. The claim is that [read] never throws and that a JSON parse
    exception comes back as a failure of the taxonomy. The code does not
    catch what [JSON.parse] throws: when the inner store hands out a text
    the parser rejects, [read] itself throws that error. (Cast failures
    are re-labeled, and the inner failures are passed on, as claimed:
    [read_outcomes].) *)
Theorem read_throws_on_unparsable_content {Json St Key Value : Type}
    (JSON_parse : string -> JS.Completion Json)
    (mapStore : STDMapStore.t St string string)
    (valueModel : Model.t Json Value) (stringFromKey : Key -> string)
    (key : Key) (s : St) (content : string) (e : JS.Error) :
  STDMapStore.read mapStore (stringFromKey key) s = JS.Normal (success content) ->
  JSON_parse content = JS.Throw e ->
  JSONModeledStorage.read JSON_parse mapStore valueModel stringFromKey key s
  = JS.Throw e.
Proof.
  intros Hread Hparse. rewrite read_outcomes, Hread, Hparse. reflexivity.
Qed.

Lemma read_throws_on_unparsable_content_witness :
  JSONModeledStorage.read Sample.parseLiteral MemoryMapStore.ops Sample.anyJson
    defaultStringFromKey "a" (Sample.memoryWith [("a", "{")])
  = JS.Throw JS.SyntaxError.
Proof.
  apply (read_throws_on_unparsable_content Sample.parseLiteral MemoryMapStore.ops
           Sample.anyJson defaultStringFromKey "a" _ "{"); reflexivity.
Defined.

(** C7. [list] validates the inner keys in order. If a key fails the key
    model after a prefix of valid keys, the call is an internal failure
    carrying the message of that first failing key, and the keys collected
    so far are dropped; whenever some key is invalid there is such a first
    one, so the call fails; if every key is valid, the call succeeds with
    all the validated keys, in order. *)
Theorem list_validates_every_key {St Key : Type}
    (mapStore : STDMapStore.t St string string) (keyModel : Model.t string Key)
    (s : St) (stringKeys : list string) :
  STDMapStore.list_ mapStore s = JS.Normal (success stringKeys) ->
  (forall (good : list string) (keys : list Key) (bad : string)
      (rest : list string) (f : Model.CastFailure),
      stringKeys = (good ++ bad :: rest)%list ->
      Forall2 (validates keyModel) good keys ->
      Model.from keyModel bad = failure f ->
      JSONModeledStorage.list_ mapStore keyModel s
      = JS.Normal (failure (InternalFailure (JS.newError (Model.message f))))) /\
  (forall (bad : string) (f : Model.CastFailure),
      bad ∈ stringKeys ->
      Model.from keyModel bad = failure f ->
      exists (first : string) (f' : Model.CastFailure),
        first ∈ stringKeys /\
        Model.from keyModel first = failure f' /\
        JSONModeledStorage.list_ mapStore keyModel s
        = JS.Normal (failure (InternalFailure (JS.newError (Model.message f'))))) /\
  (forall keys : list Key,
      Forall2 (validates keyModel) stringKeys keys ->
      JSONModeledStorage.list_ mapStore keyModel s = JS.Normal (success keys)).
Proof.
  intros Hlist. unfold JSONModeledStorage.list_. rewrite Hlist. simpl.
  assert (Hfirst : forall (good : list string) (keys : list Key) (bad : string)
                     (rest : list string) (f : Model.CastFailure),
             Forall2 (validates keyModel) good keys ->
             Model.from keyModel bad = failure f ->
             JS.Normal (JSONModeledStorage.validateKeys keyModel []
                          (good ++ bad :: rest))
             = JS.Normal (failure (InternalFailure (JS.newError (Model.message f))))).
  { intros good keys bad rest f Hgood Hbad.
    rewrite (validateKeys_prefix keyModel good keys Hgood). simpl.
    now rewrite Hbad. }
  split; [| split].
  - intros good keys bad rest f -> Hgood Hbad. now apply (Hfirst good keys).
  - intros bad f Hin Hbad.
    destruct (first_invalid keyModel stringKeys bad f Hin Hbad)
      as (good & keys & first & rest & f' & -> & Hgood & Hf').
    exists first, f'. split; [| split; [exact Hf' |]].
    + apply elem_of_app. right. apply list_elem_of_here.
    + now apply (Hfirst good keys).
  - intros keys Hall.
    rewrite <- (app_nil_r stringKeys).
    rewrite (validateKeys_prefix keyModel stringKeys keys Hall). reflexivity.
Qed.

Lemma list_validates_every_key_witness :
  JSONModeledStorage.list_ MemoryMapStore.ops Sample.noSpaceKey
    (Sample.memoryWith [("a", "1"); ("b c", "2"); ("d", "3")])
  = JS.Normal (failure (InternalFailure (JS.newError "key has a space: b c"))) /\
  JSONModeledStorage.list_ MemoryMapStore.ops Sample.noSpaceKey
    (Sample.memoryWith [("a", "1"); ("d", "3")])
  = JS.Normal (success ["a"; "d"]).
Proof.
  split.
  - refine (proj1 (list_validates_every_key MemoryMapStore.ops Sample.noSpaceKey
                     _ ["a"; "b c"; "d"] _) ["a"] ["a"] "b c" ["d"]
                     {| Model.message := "key has a space: b c" |} _ _ _).
    + reflexivity.
    + reflexivity.
    + repeat constructor.
    + reflexivity.
  - refine (proj2 (proj2 (list_validates_every_key MemoryMapStore.ops
                            Sample.noSpaceKey _ ["a"; "d"] _)) ["a"; "d"] _).
    + reflexivity.
    + repeat constructor.
Defined.

(** ** The key-transform combinators *)

Section TransformFacts.
Context {V : Type}.
Variable forward backward : string -> string.
Hypothesis roundtrip : forall key, backward (forward key) = key.

Local Abbreviation wrapped :=
  (transformKey.ops forward backward MemoryMapStore.ops
     : STDMapStore.t (gmap string V) string V).

(** The inner keys after a run of writes through the wrapping: those
    that were there, and the forward images of the keys written. *)
Lemma writeAll_inner_keys (pairs : list (string * V)) (m : gmap string V)
    (inner : string) :
  is_Some (writeAll wrapped pairs m !! inner) <->
  is_Some (m !! inner) \/ exists key, key ∈ pairs.*1 /\ inner = forward key.
Proof.
  revert m. induction pairs as [|[key value] rest IH]; intros m; simpl.
  - split; [auto |]. intros [Hm|(key & Hin & _)]; [exact Hm |].
    now apply elem_of_nil in Hin.
  - unfold Map2.set. simpl. rewrite IH, lookup_insert_is_Some'. split.
    + intros [[<-|Hm]|(k & Hin & ->)].
      * right. exists key. split; [apply list_elem_of_here | reflexivity].
      * now left.
      * right. exists k. split; [now apply list_elem_of_further | reflexivity].
    + intros [Hm|(k & Hin & ->)]; [now left; right |].
      apply elem_of_cons in Hin as [->|Hin]; [now left; left |].
      right. eauto.
Qed.

(** On a memory store that started empty and was written through the
    wrapping only, [list] returns the keys written, each once. *)
Lemma wrapped_list_fresh (pairs : list (string * V)) :
  exists keys,
    STDMapStore.list_ wrapped (writeAll wrapped pairs ∅) = JS.Normal (success keys) /\
    NoDup keys /\
    forall key, key ∈ keys <-> key ∈ pairs.*1.
Proof.
  set (m := writeAll wrapped pairs ∅).
  assert (Hinner : forall inner, is_Some (m !! inner) <->
                     exists key, key ∈ pairs.*1 /\ inner = forward key).
  { intros inner. unfold m. rewrite writeAll_inner_keys, lookup_empty.
    split; [intros [[? [=]]|Hk]; exact Hk | now right]. }
  exists (backward <$> (map_to_list m).*1). split; [| split].
  - simpl. unfold transformKey.list_, MemoryMapStore.list_, Map2.entries.
    simpl. reflexivity.
  - apply NoDup_fmap_2_strong; [| apply NoDup_fst_map_to_list].
    intros a b Ha Hb Heq.
    assert (Hsome : forall x, x ∈ (map_to_list m).*1 -> is_Some (m !! x)).
    { intros x Hx. apply list_elem_of_fmap in Hx as ([k v] & -> & Hin).
      apply elem_of_map_to_list in Hin. eauto. }
    apply Hsome, Hinner in Ha as (ka & _ & ->).
    apply Hsome, Hinner in Hb as (kb & _ & ->).
    rewrite !roundtrip in Heq. now subst.
  - intros key. rewrite list_elem_of_fmap. split.
    + intros (inner & -> & Hin).
      apply list_elem_of_fmap in Hin as ([k v] & -> & Hin).
      apply elem_of_map_to_list in Hin.
      destruct (proj1 (Hinner k) (mk_is_Some _ _ Hin)) as (key & Hkey & ->).
      simpl. now rewrite roundtrip.
    + intros Hkey.
      destruct (proj2 (Hinner (forward key))) as [v Hv]; [eauto |].
      exists (forward key). split; [now rewrite roundtrip |].
      apply list_elem_of_fmap. exists (forward key, v). split; [reflexivity |].
      now apply elem_of_map_to_list.
Qed.
End TransformFacts.

(** [list] of a wrapped store is the inner listing with the backward
    function applied to every key; inner failures pass. *)
Lemma transformKey_list {St K TK V : Type} (forward : K -> TK) (backward : TK -> K)
    (mapStore : STDMapStore.t St TK V) (s : St) :
  STDMapStore.list_ (transformKey.ops forward backward mapStore) s
  = match STDMapStore.list_ mapStore s with
    | JS.Normal (success keys) => JS.Normal (success (backward <$> keys))
    | JS.Normal (failure f) => JS.Normal (failure f)
    | JS.Throw e => JS.Throw e
    end.
Proof.
  simpl. unfold transformKey.list_.
  now destruct (STDMapStore.list_ mapStore s) as [[keys|f]|e].
Qed.

(** C5 as stated fails when the inner store holds keys that did not come
    through the wrapping: two namespaces over one memory store, ["x"]
    written through [other] and ["u1"] through [users]; the listing of
    [users] returns ["x"] as well, which was never written through it. *)
Lemma namespace_listing_leaks :
  let other := transformKeyWithNamespace "other" MemoryMapStore.ops in
  let users := transformKeyWithNamespace "users" MemoryMapStore.ops in
  let m := writeAll users [("u1", "2")] (writeAll other [("x", "1")] ∅) in
  STDMapStore.list_ users m = JS.Normal (success ["x"; "u1"]) /\
  ~ (forall key, key ∈ ["x"; "u1"] <-> key ∈ [("u1", "2")].*1).
Proof.
  split; [reflexivity |].
  intros Hsame. specialize (Hsame "x").
  assert (Hin : "x" ∈ [("u1", "2")].*1) by (apply Hsame; apply list_elem_of_here).
  simpl in Hin. apply list_elem_of_singleton in Hin. discriminate.
Qed.

(** C5, amended. Both combinators undo their own key transform; and on
    an inner store that holds only what was written through the wrapping
    (a memory store that started empty), [list] returns exactly the keys
    written, in their original form. *)
Theorem wrapped_keys_round_trip :
  (forall namespace key,
      Namespace.backward namespace (Namespace.forward namespace key) = key) /\
  (forall fileExtension key,
      FileExtension.backward fileExtension (FileExtension.forward fileExtension key)
      = key) /\
  (forall (V : Type) (namespace : string) (pairs : list (string * V)),
      let wrapped := transformKeyWithNamespace namespace MemoryMapStore.ops in
      exists keys,
        STDMapStore.list_ wrapped (writeAll wrapped pairs ∅) = JS.Normal (success keys) /\
        NoDup keys /\ forall key, key ∈ keys <-> key ∈ pairs.*1) /\
  (forall (V : Type) (fileExtension : string) (pairs : list (string * V)),
      let wrapped := transformKeyWithFileExtension fileExtension MemoryMapStore.ops in
      exists keys,
        STDMapStore.list_ wrapped (writeAll wrapped pairs ∅) = JS.Normal (success keys) /\
        NoDup keys /\ forall key, key ∈ keys <-> key ∈ pairs.*1).
Proof.
  split; [exact Namespace_roundtrip |].
  split; [exact FileExtension_roundtrip |].
  split.
  - intros V namespace pairs.
    exact (wrapped_list_fresh _ _ (Namespace_roundtrip namespace) pairs).
  - intros V fileExtension pairs.
    exact (wrapped_list_fresh _ _ (FileExtension_roundtrip fileExtension) pairs).
Qed.

(** C10. [list] of a namespaced store answers with one key for every key
    the inner store lists: the inner key without its first
    [namespace.length + 1] code units, whatever they are. Nothing is
    checked against the prefix and nothing is filtered out: a key of
    another namespace comes back mangled, and a key no longer than the
    prefix comes back as the empty string. *)
Theorem namespace_list_does_not_filter {St V : Type} (namespace : string)
    (storage : STDMapStore.t St string V) (s : St) (innerKeys : list string) :
  STDMapStore.list_ storage s = JS.Normal (success innerKeys) ->
  exists listed,
    STDMapStore.list_ (transformKeyWithNamespace namespace storage) s
    = JS.Normal (success listed) /\
    Forall2 (fun inner key =>
               key = JS.slice inner (JS.strlen namespace + 1) None /\
               (forall prefix rest, inner = prefix +:+ rest ->
                  JS.strlen prefix = JS.strlen namespace + 1 -> key = rest) /\
               (JS.strlen inner <= JS.strlen namespace + 1 -> key = ""))
            innerKeys listed.
Proof.
  intros Hlist. exists (Namespace.backward namespace <$> innerKeys). split.
  - unfold transformKeyWithNamespace. now rewrite transformKey_list, Hlist.
  - apply Forall2_fmap_r, Forall_Forall2_diag, Forall_forall.
    intros inner _. unfold Namespace.backward. split; [reflexivity | split].
    + intros prefix rest -> <-. apply slice_drops.
    + apply slice_short.
Qed.

Lemma namespace_list_does_not_filter_witness :
  exists listed,
    STDMapStore.list_ (transformKeyWithNamespace "users" MemoryMapStore.ops)
      (Sample.memoryWith [("other/x", "1"); ("ab", "2"); ("users/u1", "3")])
    = JS.Normal (success listed) /\
    Forall2 (fun inner key =>
               key = JS.slice inner (JS.strlen "users" + 1) None /\
               (forall prefix rest, inner = prefix +:+ rest ->
                  JS.strlen prefix = JS.strlen "users" + 1 -> key = rest) /\
               (JS.strlen inner <= JS.strlen "users" + 1 -> key = ""))
            ["other/x"; "users/u1"; "ab"] listed.
Proof.
  apply (namespace_list_does_not_filter "users" MemoryMapStore.ops). reflexivity.
Defined.

(** The inner keys ["other/x"], ["users/u1"] and ["ab"] are listed by the
    [users] namespace as ["x"], ["u1"] and [""]. *)
Example namespace_list_mangles :
  STDMapStore.list_ (transformKeyWithNamespace "users" MemoryMapStore.ops)
    (Sample.memoryWith [("other/x", "1"); ("ab", "2"); ("users/u1", "3")])
  = JS.Normal (success ["x"; "u1"; ""]).
Proof. reflexivity. Qed.

(** ** The factory *)

Section FactoryFacts.
Context {Creds Json Value : Type}.
Variable createS3Storage : Creds -> string -> JS.Completion (Store.t string string).
Variable JSON_parse : string -> JS.Completion Json.
Variable JSON_stringify : Value -> option string.
Variable valueModel : Model.t Json Value.
Variable keyModel : Model.t string string.

(** The store the factory builds over a string store [inner] for
    ['local-json'], and for ['s3-json'] under [namespace]. *)
Lemma local_json_made (config : Config.t Creds) (namespace : string) (w : FS.t) :
  Config.type (Config.storage config) = "local-json" ->
  createModelMapStore createS3Storage JSON_parse JSON_stringify config
    valueModel keyModel namespace w
  = (directory <- createDirectoryMapStore
                    (FS.join (Config.dir (Config.storage config)) namespace) w ;;
     JS.Normal (Store.mk (Store.Backing directory) (Store.state directory)
       (createJSONModeledStorage JSON_parse JSON_stringify
          (transformKeyWithFileExtension ".json" (Store.api directory))
          valueModel keyModel))).
Proof. unfold createModelMapStore. now intros ->. Qed.

Lemma s3_json_made (config : Config.t Creds) (namespace : string) (w : FS.t) :
  Config.type (Config.storage config) = "s3-json" ->
  createModelMapStore createS3Storage JSON_parse JSON_stringify config
    valueModel keyModel namespace w
  = (s3 <- createS3Storage (Config.creds (Config.storage config))
             (Config.bucketName (Config.storage config)) ;;
     JS.Normal (Store.mk (Store.Backing s3) (Store.state s3)
       (createJSONModeledStorage JSON_parse JSON_stringify
          (transformKeyWithNamespace namespace
             (transformKeyWithFileExtension ".json" (Store.api s3)))
          valueModel keyModel))).
Proof. unfold createModelMapStore. now intros ->. Qed.
End FactoryFacts.

(** C8. A storage type that is none of the three known ones makes the
    factory throw, an [Error] naming the type; no store and no Result comes
    back. With ['memory'] it returns a memory store; with ['local-json'] and
    ['s3-json'] it throws exactly when, and what, the constructor of the
    backend throws. *)
Theorem unknown_storage_type_throws {Creds Json Value : Type}
    (createS3Storage : Creds -> string -> JS.Completion (Store.t string string))
    (JSON_parse : string -> JS.Completion Json)
    (JSON_stringify : Value -> option string)
    (config : Config.t Creds)
    (valueModel : Model.t Json Value) (keyModel : Model.t string string)
    (namespace : string) (w : FS.t) :
  let storage := Config.storage config in
  let made := createModelMapStore createS3Storage JSON_parse JSON_stringify
                config valueModel keyModel namespace w in
  (Config.type storage <> "memory" ->
   Config.type storage <> "local-json" ->
   Config.type storage <> "s3-json" ->
   made = JS.Throw (JS.newError ("Unknown storage type: " +:+ Config.type storage))) /\
  (Config.type storage = "memory" -> made = JS.Normal createMemoryMapStore) /\
  (Config.type storage = "local-json" ->
   forall e, made = JS.Throw e <->
             createDirectoryMapStore (FS.join (Config.dir storage) namespace) w
             = JS.Throw e) /\
  (Config.type storage = "s3-json" ->
   forall e, made = JS.Throw e <->
             createS3Storage (Config.creds storage) (Config.bucketName storage)
             = JS.Throw e).
Proof.
  cbv zeta. repeat split.
  - intros Hm Hl Hs. unfold createModelMapStore.
    rewrite !bool_decide_eq_false_2 by assumption. reflexivity.
  - intros Hm. unfold createModelMapStore. now rewrite Hm.
  - rewrite local_json_made by assumption.
    destruct (createDirectoryMapStore _ w); simpl; congruence.
  - rewrite local_json_made by assumption.
    destruct (createDirectoryMapStore _ w); simpl; congruence.
  - rewrite s3_json_made by assumption.
    destruct (createS3Storage _ _); simpl; congruence.
  - rewrite s3_json_made by assumption.
    destruct (createS3Storage _ _); simpl; congruence.
Qed.

Lemma unknown_storage_type_throws_witness :
  createModelMapStore Sample.memoryBucket Sample.parseLiteral Sample.stringifyLiteral
    (Sample.config "xml-files" "data") Sample.anyJson Sample.noSpaceKey
    "chapters" FS.empty
  = JS.Throw (JS.newError "Unknown storage type: xml-files") /\
  createModelMapStore Sample.memoryBucket Sample.parseLiteral Sample.stringifyLiteral
    (Sample.config "memory" "data") Sample.anyJson Sample.noSpaceKey
    "chapters" FS.empty
  = JS.Normal createMemoryMapStore /\
  (createModelMapStore Sample.unreachableBucket Sample.parseLiteral
     Sample.stringifyLiteral (Sample.config "s3-json" "data") Sample.anyJson
     Sample.noSpaceKey "chapters" FS.empty
   = JS.Throw (JS.newError "cannot reach bucket atlas")).
Proof.
  split; [| split].
  - refine (proj1 (unknown_storage_type_throws Sample.memoryBucket
                     Sample.parseLiteral Sample.stringifyLiteral
                     (Sample.config "xml-files" "data") Sample.anyJson
                     Sample.noSpaceKey "chapters" FS.empty) _ _ _);
      simpl; discriminate.
  - refine (proj1 (proj2 (unknown_storage_type_throws Sample.memoryBucket
                     Sample.parseLiteral Sample.stringifyLiteral
                     (Sample.config "memory" "data") Sample.anyJson
                     Sample.noSpaceKey "chapters" FS.empty)) _).
    reflexivity.
  - refine (proj2 (proj2 (proj2 (proj2 (unknown_storage_type_throws
                     Sample.unreachableBucket
                     Sample.parseLiteral Sample.stringifyLiteral
                     (Sample.config "s3-json" "data") Sample.anyJson
                     Sample.noSpaceKey "chapters" FS.empty))) _ _) _);
      reflexivity.
Defined.



(** A chapter written through the ['local-json'] store made over an empty
    disk lands in the file [intro..json] of [data/chapters]. *)
Example local_json_physical_file :
  let assembled :=
    createJSONModeledStorage Sample.parseLiteral Sample.stringifyLiteral
      (transformKeyWithFileExtension ".json" (DirectoryMapStore.ops "data/chapters"))
      Sample.anyJson Sample.noSpaceKey in
  exists disk,
    createModelMapStore Sample.memoryBucket Sample.parseLiteral
      Sample.stringifyLiteral (Sample.config "local-json" "data") Sample.anyJson
      Sample.noSpaceKey "chapters" FS.empty
    = JS.Normal (Store.mk FS.t disk assembled) /\
    let after := STDMapStore.write assembled "intro" Sample.JNull disk in
    after.2 = JS.Normal (success tt) /\
    FS.readdir after.1 "data/chapters" = inr ["intro..json"] /\
    STDMapStore.list_ assembled after.1 = JS.Normal (success ["intro"]) /\
    STDMapStore.read assembled "intro" after.1 = JS.Normal (success Sample.JNull).
Proof. eexists. split; [reflexivity |]. repeat split. Qed.

(** ** The scenarios of the specification *)

(** Scenario 1: [write("a", "hello")] on a fresh memory store; [list()]
    returns [["a"]] and [read("a")] returns ["hello"]. *)
Example scenario_memory_store :
  let store := (Store.write (createMemoryMapStore (V := string)) "a" "hello").1 in
  Store.list_ store = JS.Normal (success ["a"]) /\
  Store.read store "a" = JS.Normal (success "hello").
Proof. split; reflexivity. Qed.

(** Scenario 3: through the namespace [users] over a memory store,
    [write("u1", v)] puts [users/u1] into the inner store, and the
    namespaced [list()] returns [["u1"]]. *)
Example scenario_namespaced_store :
  let users := transformKeyWithNamespace "users" MemoryMapStore.ops in
  let m := (STDMapStore.write users "u1" "v" ∅).1 in
  MemoryMapStore.list_ m = JS.Normal (success ["users/u1"]) /\
  STDMapStore.list_ users m = JS.Normal (success ["u1"]).
Proof. split; reflexivity. Qed.

(** A stored value the value model refuses is read as an internal failure
    carrying the message of the model; an absent key is read as
    not-found. *)
Example read_relabels_cast_failure :
  let store :=
    JSONModeledStorage.ops Sample.parseLiteral MemoryMapStore.ops Sample.onlyBool
      Sample.noSpaceKey defaultStringFromKey
      (fun b : bool => if b then "true" else "false") in
  let m := Sample.memoryWith [("a", "null"); ("b", "true")] in
  STDMapStore.read store "a" m
  = JS.Normal (failure (InternalFailure (JS.newError "not a boolean"))) /\
  STDMapStore.read store "b" m = JS.Normal (success true) /\
  STDMapStore.read store "c" m = JS.Normal (failure NotFound).
Proof. repeat split. Qed.

(** * Further properties of the code *)

(** ** The memory store, beyond the claims *)

Section MemoryMore.
Context {K V : Type} `{Countable K}.
Implicit Types (m : gmap K V) (key other : K) (value : V).

Lemma memory_read_lookup key m :
  MemoryMapStore.read key m
  = match m !! key with
    | Some value => JS.Normal (success value)
    | None => JS.Normal (failure NotFound)
    end.
Proof.
  unfold MemoryMapStore.read, Map2.get. now destruct (m !! key).
Qed.

Lemma memory_list_lookup m :
  exists keys,
    MemoryMapStore.list_ m = JS.Normal (success keys) /\
    NoDup keys /\
    forall key, key ∈ keys <-> is_Some (m !! key).
Proof.
  exists (map_to_list m).*1. split; [reflexivity |].
  split; [apply NoDup_fst_map_to_list |].
  intros key. rewrite list_elem_of_fmap. split.
  - intros ([k v] & -> & Hin). apply elem_of_map_to_list in Hin. eauto.
  - intros [v Hv]. exists (key, v). split; [reflexivity |].
    now apply elem_of_map_to_list.
Qed.

(** X1. [list] of a memory store returns every key once, and a key is
    listed exactly when [read] finds a value for it. *)
Theorem memory_list_matches_read m :
  exists keys,
    MemoryMapStore.list_ m = JS.Normal (success keys) /\
    NoDup keys /\
    forall key,
      key ∈ keys <-> exists value, MemoryMapStore.read key m = JS.Normal (success value).
Proof.
  destruct (memory_list_lookup m) as (keys & Hlist & Hnodup & Hin).
  exists keys. split; [exact Hlist |]. split; [exact Hnodup |].
  intros key. rewrite Hin, memory_read_lookup. split.
  - intros [value ->]. eauto.
  - intros [value Hread]. destruct (m !! key); [eauto | discriminate].
Qed.

(** X2. [destroy] of a key that [read] does not find answers not-found
    and leaves the store as it was; [destroy] of a key that [read] finds
    succeeds, after which [read] of that key is not-found and every other
    key reads as before. *)
Theorem memory_destroy_removes_one_key m key :
  (MemoryMapStore.read key m = JS.Normal (failure NotFound) ->
   MemoryMapStore.destroy key m = (m, JS.Normal (failure NotFound))) /\
  (forall value,
      MemoryMapStore.read key m = JS.Normal (success value) ->
      let after := MemoryMapStore.destroy key m in
      after.2 = JS.Normal (success tt) /\
      MemoryMapStore.read key after.1 = JS.Normal (failure NotFound) /\
      forall other, other <> key ->
        MemoryMapStore.read other after.1 = MemoryMapStore.read other m).
Proof.
  rewrite memory_read_lookup. unfold MemoryMapStore.destroy, Map2.delete. split.
  - destruct (m !! key); [discriminate | reflexivity].
  - intros value Hread.
    destruct (m !! key) as [v|] eqn:Hkey; [| discriminate]. simpl.
    split; [reflexivity |]. split.
    + now rewrite memory_read_lookup, lookup_delete_eq.
    + intros other Hne.
      now rewrite !memory_read_lookup, lookup_delete_ne.
Qed.

(** X3. [write] touches one key: every other key reads as before, and the
    listing afterwards holds the written key and the keys listed before,
    nothing else. It is an upsert where the last write wins: writing the
    key again leaves the store as the second write alone would. *)
Theorem memory_write_touches_one_key m key value :
  let after := (MemoryMapStore.write key value m).1 in
  (forall other, other <> key ->
     MemoryMapStore.read other after = MemoryMapStore.read other m) /\
  (forall value',
     (MemoryMapStore.write key value' after).1
     = (MemoryMapStore.write key value' m).1) /\
  (forall before listed,
     MemoryMapStore.list_ m = JS.Normal (success before) ->
     MemoryMapStore.list_ after = JS.Normal (success listed) ->
     forall k, k ∈ listed <-> k = key \/ k ∈ before).
Proof.
  cbv zeta. unfold MemoryMapStore.write, Map2.set. simpl. split.
  - intros other Hne. now rewrite !memory_read_lookup, lookup_insert_ne.
  - split; [intros value'; apply insert_insert_eq |].
    intros before listed Hbefore Hlisted k.
    destruct (memory_list_lookup m) as (keys & Hk & _ & Hin).
    rewrite Hk in Hbefore. injection Hbefore as <-.
    destruct (memory_list_lookup (<[key := value]> m)) as (keys' & Hk' & _ & Hin').
    rewrite Hk' in Hlisted. injection Hlisted as <-.
    rewrite Hin', Hin, lookup_insert_is_Some. split.
    + intros [->|[_ Hs]]; [now left | now right].
    + intros [->|Hs]; [now left |].
      destruct (decide (key = k)); [now left | now right].
Qed.

End MemoryMore.

Lemma memory_destroy_removes_one_key_witness :
  MemoryMapStore.destroy "b" ({[ "a" := "1" ]} : gmap string string)
  = ({[ "a" := "1" ]}, JS.Normal (failure NotFound)) /\
  MemoryMapStore.read "a"
    (MemoryMapStore.destroy "a" ({[ "a" := "1" ]} : gmap string string)).1
  = JS.Normal (failure NotFound).
Proof.
  split.
  - apply (memory_destroy_removes_one_key (K := string)). reflexivity.
  - refine (proj1 (proj2 (proj2 (memory_destroy_removes_one_key (K := string)
                                   {[ "a" := "1" ]} "a") "1" _))).
    reflexivity.
Defined.

Lemma memory_write_touches_one_key_witness :
  MemoryMapStore.read "a"
    (MemoryMapStore.write "b" "2" ({[ "a" := "1" ]} : gmap string string)).1
  = MemoryMapStore.read "a" ({[ "a" := "1" ]} : gmap string string).
Proof.
  refine (proj1 (memory_write_touches_one_key (K := string) {[ "a" := "1" ]} "b" "2")
            "a" _).
  discriminate.
Defined.


(** ** The directory store, beyond the claims *)

Module FSMore.
Import FS FSFacts.

(** A path that cannot be followed cannot be followed further. *)
Lemma find_error_extends entries names key e :
  find entries names = inl e -> find entries (names ++ [key]) = inl e.
Proof.
  revert entries. induction names as [|name rest IH]; intros entries Hfind;
    simpl in *; [discriminate |].
  destruct (entries !! name) as [[content|d]|]; [| now apply IH | exact Hfind].
  destruct rest; [discriminate | exact Hfind].
Qed.

Lemma change_error_extends f entries names key e :
  find entries names = inl e -> change f entries (names ++ [key]) = inl e.
Proof.
  revert entries. induction names as [|name rest IH]; intros entries Hfind;
    [discriminate |].
  simpl in Hfind. simpl app.
  assert (Hstep : change f entries (name :: rest ++ [key])
            = match entries !! name with
              | None => inl ENOENT
              | Some (File _) => inl ENOTDIR
              | Some (Dir d) =>
                  match change f d (rest ++ [key]) with
                  | inl e' => inl e'
                  | inr d' => inr (<[name := Dir d']> entries)
                  end
              end).
  { simpl. destruct (rest ++ [key])%list eqn:Hr; [destruct rest; discriminate |].
    reflexivity. }
  rewrite Hstep.
  destruct (entries !! name) as [[content|d]|]; [| | congruence].
  - destruct rest; [discriminate | congruence].
  - now rewrite (IH d Hfind).
Qed.

(** Nothing can be unlinked where the path cannot be followed. *)
Lemma unlink_error dirOnly entries names e :
  find entries names = inl e -> change (unlinks dirOnly) entries names = inl e.
Proof.
  revert entries. induction names as [|name rest IH]; intros entries Hfind;
    [discriminate |].
  simpl in Hfind. destruct rest as [|next rest].
  - simpl. destruct (entries !! name) as [[content|d]|]; simpl in *;
      try discriminate. congruence.
  - change (change (unlinks dirOnly) entries (name :: next :: rest))
      with (match entries !! name with
            | None => inl ENOENT
            | Some (File _) => inl ENOTDIR
            | Some (Dir d) =>
                match change (unlinks dirOnly) d (next :: rest) with
                | inl e' => inl e'
                | inr d' => inr (<[name := Dir d']> entries)
                end
            end).
    destruct (entries !! name) as [[content|d]|]; [congruence | | congruence].
    now rewrite (IH d Hfind).
Qed.

(** The directory in which an entry was changed, afterwards. *)
Lemma change_at_child f entries names inner key entries' :
  find entries names = inr (Dir inner) ->
  change f entries (names ++ [key]) = inr entries' ->
  exists r,
    f (inner !! key) = inr r /\
    find entries' names
    = inr (Dir (match r with
                | Some n => <[key := n]> inner
                | None => delete key inner
                end)).
Proof.
  revert entries entries'.
  induction names as [|name rest IH]; intros entries entries' Hfind Hchange.
  - simpl in Hfind. injection Hfind as ->. simpl in Hchange.
    destruct (f (inner !! key)) as [e|[n|]]; try discriminate;
      injection Hchange as <-; eauto.
  - simpl in Hfind.
    destruct (entries !! name) as [[content|d]|] eqn:Hname; try discriminate.
    { destruct rest; discriminate. }
    assert (Hstep : change f entries ((name :: rest) ++ [key])
              = match change f d (rest ++ [key]) with
                | inl e => inl e
                | inr d' => inr (<[name := Dir d']> entries)
                end).
    { simpl. destruct (rest ++ [key])%list eqn:Hr;
        [destruct rest; discriminate |]. now rewrite Hname. }
    rewrite Hstep in Hchange.
    destruct (change f d (rest ++ [key])) as [e|d'] eqn:Hd; [discriminate |].
    injection Hchange as <-.
    destruct (IH d d' Hfind Hd) as (r & Hf & Hfind').
    exists r. split; [exact Hf |]. simpl. now rewrite lookup_insert_eq.
Qed.

(** What leads to an entry leads to the directory that holds it. *)
Lemma find_parent entries names key n :
  find entries (names ++ [key]) = inr n ->
  exists inner, find entries names = inr (Dir inner) /\ inner !! key = Some n.
Proof.
  revert entries. induction names as [|name rest IH]; intros entries Hfind.
  - simpl in *. exists entries. split; [reflexivity |].
    destruct (entries !! key) as [[content|d]|]; congruence.
  - simpl in *.
    destruct (entries !! name) as [[content|d]|]; try discriminate.
    + destruct rest; discriminate.
    + now apply IH.
Qed.

(** [mkdir -p] keeps what is there: files with their content, directories
    as directories. *)
Lemma makeDirectories_keeps entries names entries' :
  makeDirectories entries names = inr entries' ->
  forall where_ n,
    find entries where_ = inr n ->
    exists n', find entries' where_ = inr n' /\
               isDirectory n' = isDirectory n /\
               (forall content, n = File content -> n' = File content).
Proof.
  revert entries entries'.
  induction names as [|name rest IH]; intros entries entries' Hmk where_ n Hfind.
  - simpl in Hmk. injection Hmk as <-. exists n. auto.
  - simpl in Hmk. destruct where_ as [|top below].
    { simpl in Hfind. injection Hfind as <-. exists (Dir entries').
      split; [reflexivity |]. split; [reflexivity | discriminate]. }
    assert (Hother : forall made : gmap string node, name <> top ->
              exists n', find (<[name := Dir made]> entries) (top :: below) = inr n' /\
                         isDirectory n' = isDirectory n /\
                         (forall content, n = File content -> n' = File content)).
    { intros made Hne. exists n. simpl. rewrite lookup_insert_ne by done.
      simpl in Hfind. rewrite Hfind. auto. }
    simpl in Hfind.
    destruct (entries !! name) as [[content|d]|] eqn:Hname.
    + destruct rest; discriminate.
    + destruct (makeDirectories d rest) as [e|d'] eqn:Hd; [discriminate |].
      injection Hmk as <-.
      destruct (decide (name = top)) as [->|Hne]; [| now apply Hother].
      simpl. rewrite lookup_insert_eq. rewrite Hname in Hfind.
      exact (IH d d' Hd below n Hfind).
    + destruct (makeDirectories ∅ rest) as [e|d'] eqn:Hd; [discriminate |].
      injection Hmk as <-.
      destruct (decide (name = top)) as [->|Hne]; [| now apply Hother].
      now rewrite Hname in Hfind.
Qed.

(** [mkdir -p] refuses a path that names a file. *)
Lemma makeDirectories_on_file entries names content :
  find entries names = inr (File content) ->
  makeDirectories entries names = inl EEXIST.
Proof.
  revert entries. induction names as [|name rest IH]; intros entries Hfind;
    [discriminate |].
  simpl in *. destruct (entries !! name) as [[c|d]|]; try discriminate.
  - destruct rest; [reflexivity | discriminate].
  - now rewrite (IH d Hfind).
Qed.

End FSMore.

Section DirectoryMore.
Import FS FSFacts FSMore.
Variable path : string.

(** In a store that is in place, [list] answers with the names in the
    directory, and a key that is a plain name is read from the entry of
    that name. *)
Lemma mounted_view (w : FS.t) :
  mounted path w ->
  exists names inner,
    find (root w) names = inr (Dir inner) /\
    DirectoryMapStore.list_ path w = JS.Normal (success (map_to_list inner).*1) /\
    forall key, plainName key ->
      locate w (join path key) = inr ((names ++ [key])%list, false) /\
      find (root w) (names ++ [key])
      = match inner !! key with
        | None => inl ENOENT
        | Some n => inr n
        end.
Proof.
  intros Hm.
  destruct (mounted_directory path w Hm) as (names & dirOnly & inner & Hloc & Hfind).
  exists names, inner. split; [exact Hfind |]. split.
  - unfold DirectoryMapStore.list_, readdir. now rewrite Hloc, Hfind.
  - intros key Hkey. split.
    + exact (locate_join w path key names dirOnly Hloc Hkey).
    + now apply find_into_directory.
Qed.

Lemma listed_entry (inner : gmap string node) (key : string) :
  key ∈ (map_to_list inner).*1 <-> is_Some (inner !! key).
Proof.
  rewrite list_elem_of_fmap. split.
  - intros ([k n] & -> & Hin). apply elem_of_map_to_list in Hin. eauto.
  - intros [n Hn]. exists (key, n). split; [reflexivity |].
    now apply elem_of_map_to_list.
Qed.

(** X5. In a store that is in place, for a key that is a plain name:
    the key is among the listed names exactly when the system finds an
    entry at the path of its file; [read] answers with the content of the
    entry when it is a regular file, with an internal failure ([EISDIR])
    when it is a directory, and with not-found when the system answers
    [ENOENT]; and a key that is not listed is never read with success. *)
Theorem directory_read_matches_list (key : string) (w : FS.t) (names : list string) :
  mounted path w ->
  plainName key ->
  DirectoryMapStore.list_ path w = JS.Normal (success names) ->
  let file := stat w (join path key) in
  let answer := DirectoryMapStore.read path key w in
  (key ∈ names <-> exists n, file = inr n) /\
  (forall content,
      file = inr (File content) -> answer = JS.Normal (success content)) /\
  (forall entries,
      file = inr (Dir entries) ->
      answer = JS.Normal (failure (InternalFailure (FS.error EISDIR)))) /\
  (file = inl ENOENT -> answer = JS.Normal (failure NotFound)) /\
  (key ∉ names -> forall content, answer <> JS.Normal (success content)).
Proof.
  intros Hm Hkey Hlist.
  destruct (mounted_view w Hm) as (here & inner & _ & Hl & Hview).
  rewrite Hl in Hlist. injection Hlist as <-.
  destruct (Hview key Hkey) as [Hloc Hfind].
  cbv zeta. unfold DirectoryMapStore.read, readFile, stat. rewrite Hloc, Hfind.
  rewrite listed_entry.
  destruct (inner !! key) as [[content|d]|] eqn:Hn; simpl.
  - split; [split; eauto |]. split; [now intros c [= ->] |].
    split; [discriminate |]. split; [discriminate |].
    intros Hnot. destruct Hnot. eauto.
  - split; [split; eauto |]. split; [discriminate |].
    split; [reflexivity |]. split; [discriminate |]. discriminate.
  - split; [split; [intros [n Hs]; discriminate | intros [n Hs]; discriminate] |].
    split; [discriminate |]. split; [discriminate |]. split; [reflexivity |].
    discriminate.
Qed.

(** X6. After a successful [write] of a key that is a plain name, [list]
    answers with that key and the names listed before, nothing else. *)
Theorem directory_write_lists_key (key value : string) (w w1 : FS.t)
    (before : list string) :
  mounted path w ->
  plainName key ->
  DirectoryMapStore.list_ path w = JS.Normal (success before) ->
  DirectoryMapStore.write path key value w = (w1, JS.Normal (success tt)) ->
  exists after,
    DirectoryMapStore.list_ path w1 = JS.Normal (success after) /\
    forall name, name ∈ after <-> name = key \/ name ∈ before.
Proof.
  intros Hm Hkey Hlist Hwrite.
  destruct (mounted_directory path w Hm) as (here & dirOnly & inner & Hloc & Hfind).
  pose proof (locate_join w path key here dirOnly Hloc Hkey) as Hfile.
  unfold DirectoryMapStore.list_, readdir in Hlist.
  rewrite Hloc, Hfind in Hlist. injection Hlist as <-.
  unfold DirectoryMapStore.write, writeFile in Hwrite. rewrite Hfile in Hwrite.
  destruct (change (writes false value) (root w) (here ++ [key])) as [e|root']
    eqn:Hchange; [discriminate |].
  injection Hwrite as <-.
  destruct (change_at_child _ _ _ _ _ _ Hfind Hchange) as (r & Hr & Hfind').
  assert (Hfile' : r = Some (File value)).
  { destruct (inner !! key) as [[content|d]|]; simpl in Hr; congruence. }
  subst r.
  exists (map_to_list (<[key := File value]> inner)).*1. split.
  - unfold DirectoryMapStore.list_, readdir.
    assert (Hloc' : locate {| root := root'; cwd := cwd w |} path
                    = inr (here, dirOnly)) by exact Hloc.
    rewrite Hloc'. simpl. now rewrite Hfind'.
  - intros name. rewrite !listed_entry, lookup_insert_is_Some. split.
    + intros [->|[_ Hs]]; [now left | now right].
    + intros [->|Hs]; [now left |].
      destruct (decide (key = name)); [now left | now right].
Qed.

(** X7. A [write] of a key that is a plain name leaves every other key
    that is a plain name reading as before, whether it succeeds or not. *)
Theorem directory_write_spares_other_keys (key other value : string) (w : FS.t) :
  mounted path w ->
  plainName key ->
  plainName other ->
  other <> key ->
  DirectoryMapStore.read path other (DirectoryMapStore.write path key value w).1
  = DirectoryMapStore.read path other w.
Proof.
  intros Hm Hkey Hother Hne.
  destruct (mounted_directory path w Hm) as (here & dirOnly & inner & Hloc & Hfind).
  pose proof (locate_join w path key here dirOnly Hloc Hkey) as Hfile.
  pose proof (locate_join w path other here dirOnly Hloc Hother) as Hfile'.
  unfold DirectoryMapStore.write, writeFile. rewrite Hfile.
  destruct (change (writes false value) (root w) (here ++ [key])) as [e|root']
    eqn:Hchange; [reflexivity |].
  destruct (change_at_child _ _ _ _ _ _ Hfind Hchange) as (r & Hr & Hfind').
  assert (Hr' : r = Some (File value)).
  { destruct (inner !! key) as [[content|d]|]; simpl in Hr; congruence. }
  subst r. simpl.
  unfold DirectoryMapStore.read, readFile.
  assert (Hloc' : locate {| root := root'; cwd := cwd w |} (join path other)
                  = inr ((here ++ [other])%list, false)) by exact Hfile'.
  rewrite Hloc', Hfile'. simpl.
  rewrite (find_into_directory _ _ _ other Hfind'),
          (find_into_directory _ _ _ other Hfind).
  now rewrite lookup_insert_ne.
Qed.

End DirectoryMore.

Lemma directory_read_matches_list_witness :
  let w := (DirectoryMapStore.write "data" "a" "hello" Sample.dataDisk).1 in
  ("a" ∈ ["a"] <-> exists n, FS.stat w (FS.join "data" "a") = inr n) /\
  DirectoryMapStore.read "data" "a" w = JS.Normal (success "hello") /\
  DirectoryMapStore.read "data" "b" w = JS.Normal (failure NotFound).
Proof.
  cbv zeta. split; [| split].
  - refine (proj1 (directory_read_matches_list "data" "a" _ ["a"] _ _ _)).
    + reflexivity.
    + repeat split; (discriminate || reflexivity).
    + reflexivity.
  - refine (proj1 (proj2 (directory_read_matches_list "data" "a" _ ["a"] _ _ _))
              "hello" _).
    + reflexivity.
    + repeat split; (discriminate || reflexivity).
    + reflexivity.
    + reflexivity.
  - refine (proj1 (proj2 (proj2 (proj2
              (directory_read_matches_list "data" "b" _ ["a"] _ _ _)))) _).
    + reflexivity.
    + repeat split; (discriminate || reflexivity).
    + reflexivity.
    + reflexivity.
Defined.

Lemma directory_write_lists_key_witness :
  exists after,
    DirectoryMapStore.list_ "data"
      (DirectoryMapStore.write "data" "a" "hello" Sample.dataDisk).1
    = JS.Normal (success after) /\
    forall name, name ∈ after <-> name = "a" \/ name ∈ [].
Proof.
  apply (directory_write_lists_key "data" "a" "hello" Sample.dataDisk).
  - reflexivity.
  - repeat split; (discriminate || reflexivity).
  - reflexivity.
  - reflexivity.
Defined.

Lemma directory_write_spares_other_keys_witness :
  DirectoryMapStore.read "data" "a"
    (DirectoryMapStore.write "data" "b" "2"
       (DirectoryMapStore.write "data" "a" "hello" Sample.dataDisk).1).1
  = DirectoryMapStore.read "data" "a"
      (DirectoryMapStore.write "data" "a" "hello" Sample.dataDisk).1.
Proof.
  apply directory_write_spares_other_keys.
  - reflexivity.
  - repeat split; (discriminate || reflexivity).
  - repeat split; (discriminate || reflexivity).
  - discriminate.
Defined.

(** X8. Making a directory store keeps every file on the disk, content
    included; and when the directory is there already, the disk is left as
    it was. *)
Theorem created_keeps_files (path : string) (w : FS.t)
    (store : Store.t string string) :
  createDirectoryMapStore path w = JS.Normal store ->
  exists w',
    store = Store.mk FS.t w' (DirectoryMapStore.ops path) /\
    (mounted path w -> w' = w) /\
    forall file content,
      FS.readFile w file = inr content -> FS.readFile w' file = inr content.
Proof.
  unfold createDirectoryMapStore, mounted.
  destruct (directoryExists path w) as [[|]|e] eqn:Hex; simpl; [| | discriminate].
  - intros [= <-]. exists w. auto.
  - unfold FS.mkdir_recursive.
    destruct (FS.locate w path) as [e|[names dirOnly]]; [discriminate |].
    destruct (FS.makeDirectories (FS.root w) names) as [e|root'] eqn:Hmk;
      [discriminate |].
    simpl. intros [= <-]. eexists. split; [reflexivity |].
    split; [discriminate |].
    intros file content. unfold FS.readFile.
    change (FS.locate {| FS.root := root'; FS.cwd := FS.cwd w |} file)
      with (FS.locate w file).
    destruct (FS.locate w file) as [e|[where_ fileOnly]]; [discriminate |].
    simpl.
    destruct (FS.find (FS.root w) where_) as [e|n] eqn:Hfind; [discriminate |].
    destruct (FSMore.makeDirectories_keeps _ _ _ Hmk where_ n Hfind)
      as (n' & -> & _ & Hsame).
    destruct n as [c|d]; [| discriminate].
    now rewrite (Hsame c eq_refl).
Qed.

Lemma created_keeps_files_witness :
  exists w',
    Store.mk FS.t
      (match FS.mkdir_recursive
               (DirectoryMapStore.write "data" "a" "hello" Sample.dataDisk).1
               "data/chapters" with
       | inr w => w
       | inl _ => FS.empty
       end)
      (DirectoryMapStore.ops "data/chapters")
    = Store.mk FS.t w' (DirectoryMapStore.ops "data/chapters") /\
    (mounted "data/chapters"
       (DirectoryMapStore.write "data" "a" "hello" Sample.dataDisk).1 ->
     w' = (DirectoryMapStore.write "data" "a" "hello" Sample.dataDisk).1) /\
    forall file content,
      FS.readFile (DirectoryMapStore.write "data" "a" "hello" Sample.dataDisk).1 file
      = inr content ->
      FS.readFile w' file = inr content.
Proof.
  apply (created_keeps_files "data/chapters"
           (DirectoryMapStore.write "data" "a" "hello" Sample.dataDisk).1).
  reflexivity.
Defined.

(** X9. A directory store cannot be made where a regular file is: when
    the path names a file the constructor throws [EEXIST], and when the
    path goes through a file it throws [ENOTDIR]; no store comes back. *)
Theorem create_on_file_throws (path : string) (w : FS.t) :
  (forall content,
      FS.stat w path = inr (FS.File content) ->
      createDirectoryMapStore path w = JS.Throw (FS.error FS.EEXIST)) /\
  (FS.stat w path = inl FS.ENOTDIR ->
   createDirectoryMapStore path w = JS.Throw (FS.error FS.ENOTDIR)).
Proof.
  unfold createDirectoryMapStore, directoryExists. split.
  - intros content Hstat. rewrite Hstat. simpl.
    unfold FS.stat in Hstat. unfold FS.mkdir_recursive.
    destruct (FS.locate w path) as [e|[names dirOnly]]; [discriminate |].
    destruct (FS.find (FS.root w) names) as [e|[c|d]] eqn:Hfind;
      try discriminate.
    now rewrite (FSMore.makeDirectories_on_file _ _ _ Hfind).
  - intros ->. reflexivity.
Qed.

Lemma create_on_file_throws_witness :
  createDirectoryMapStore "data/a"
    (DirectoryMapStore.write "data" "a" "hello" Sample.dataDisk).1
  = JS.Throw (FS.error FS.EEXIST) /\
  createDirectoryMapStore "data/a/b"
    (DirectoryMapStore.write "data" "a" "hello" Sample.dataDisk).1
  = JS.Throw (FS.error FS.ENOTDIR).
Proof.
  split.
  - apply (proj1 (create_on_file_throws "data/a" _) "hello"). reflexivity.
  - apply (proj2 (create_on_file_throws "data/a/b" _)). reflexivity.
Defined.

(** X10. When the directory of the store is gone (the system answers
    [ENOENT] for its path), [list] is an internal failure and [destroy]
    answers not-found for every key; for a key that is a plain name [read]
    never succeeds and [write] is an internal failure that leaves the disk
    as it was; and when the system answers [ENOENT] for the path of the
    file as well, [read] answers not-found and the failure of [write]
    carries [ENOENT]. The path of the store is taken without a [..]
    component: over such a component the paths that [join] makes and the
    path of the store itself can lead to different places. *)
Theorem directory_gone (path key value : string) (w : FS.t) :
  path <> "" ->
  ".." ∉ FS.split path ->
  FS.stat w path = inl FS.ENOENT ->
  DirectoryMapStore.list_ path w
  = JS.Normal (failure (InternalFailure (FS.error FS.ENOENT))) /\
  (forall any, DirectoryMapStore.destroy path any w
               = (w, JS.Normal (failure NotFound))) /\
  (FS.plainName key ->
   (forall content,
       DirectoryMapStore.read path key w <> JS.Normal (success content)) /\
   (exists error,
       DirectoryMapStore.write path key value w
       = (w, JS.Normal (failure (InternalFailure error)))) /\
   (FS.stat w (FS.join path key) = inl FS.ENOENT ->
    DirectoryMapStore.read path key w = JS.Normal (failure NotFound) /\
    DirectoryMapStore.write path key value w
    = (w, JS.Normal (failure (InternalFailure (FS.error FS.ENOENT)))))).
Proof.
  intros Hpath _ Hstat. unfold FS.stat in Hstat.
  destruct (FS.locate w path) as [e|[names dirOnly]] eqn:Hloc.
  { unfold FS.locate in Hloc. destruct (FS.hasNullByte path); [congruence |].
    now rewrite bool_decide_eq_false_2 in Hloc. }
  assert (Hfind : FS.find (FS.root w) names = inl FS.ENOENT).
  { destruct (FS.find (FS.root w) names) as [e|[c|d]]; [congruence | |].
    - destruct dirOnly; discriminate.
    - discriminate. }
  split; [| split].
  - unfold DirectoryMapStore.list_, FS.readdir. now rewrite Hloc, Hfind.
  - intros any. unfold DirectoryMapStore.destroy, FS.unlink. rewrite Hloc.
    now rewrite (FSMore.unlink_error dirOnly _ _ _ Hfind).
  - intros Hkey.
    pose proof (FSFacts.locate_join w path key names dirOnly Hloc Hkey) as Hfile.
    assert (Hread : DirectoryMapStore.read path key w = JS.Normal (failure NotFound)).
    { unfold DirectoryMapStore.read, FS.readFile. rewrite Hfile.
      now rewrite (FSMore.find_error_extends _ _ key _ Hfind). }
    assert (Hwrite : DirectoryMapStore.write path key value w
              = (w, JS.Normal (failure (InternalFailure (FS.error FS.ENOENT))))).
    { unfold DirectoryMapStore.write, FS.writeFile. rewrite Hfile.
      now rewrite (FSMore.change_error_extends _ _ _ key _ Hfind). }
    split; [| split].
    + intros content. rewrite Hread. discriminate.
    + eexists. exact Hwrite.
    + intros _. split; [exact Hread | exact Hwrite].
Qed.

Lemma directory_gone_witness :
  DirectoryMapStore.list_ "data" FS.empty
  = JS.Normal (failure (InternalFailure (FS.error FS.ENOENT))) /\
  DirectoryMapStore.destroy "data" "a" FS.empty
  = (FS.empty, JS.Normal (failure NotFound)) /\
  DirectoryMapStore.read "data" "a" FS.empty = JS.Normal (failure NotFound) /\
  DirectoryMapStore.write "data" "a" "hello" FS.empty
  = (FS.empty, JS.Normal (failure (InternalFailure (FS.error FS.ENOENT)))).
Proof.
  destruct (directory_gone "data" "a" "hello" FS.empty) as (Hlist & Hdestroy & Hkey).
  - discriminate.
  - intros Hin. apply list_elem_of_singleton in Hin. discriminate.
  - reflexivity.
  - split; [exact Hlist |]. split; [apply Hdestroy |].
    apply Hkey; [repeat split; (discriminate || reflexivity) | reflexivity].
Defined.

(** ** Keys that are not plain names *)

Module PathMore.
Import FS FSFacts.

Lemma isAbsolute_plain key : hasSlash key = false -> isAbsolute key = false.
Proof.
  destruct key as [|c key]; [reflexivity |]. simpl.
  intros H. now apply orb_false_iff in H as [? _].
Qed.

Lemma plain_not_empty key : plainName key -> forall a, a +:+ key <> "".
Proof.
  intros (Hne & _) a H. destruct a; [| discriminate]. now apply Hne.
Qed.

(** [normalize] by its three ingredients. *)
Lemma normalize_parts a b :
  a <> "" -> b <> "" ->
  isAbsolute a = isAbsolute b ->
  endsWithSlash a = endsWithSlash b ->
  normalizeSegments (negb (isAbsolute a)) [] (split a)
  = normalizeSegments (negb (isAbsolute b)) [] (split b) ->
  normalize a = normalize b.
Proof.
  intros Ha Hb Habs Hend Hsegs. unfold normalize.
  rewrite (bool_decide_eq_false_2 (a = "")) by assumption.
  rewrite (bool_decide_eq_false_2 (b = "")) by assumption.
  now rewrite Hsegs, Habs, Hend.
Qed.

Lemma normalize_plain key : plainName key -> normalize key = key.
Proof.
  intros Hkey. pose proof Hkey as (Hne & _ & _ & Hslash & _).
  unfold normalize. rewrite bool_decide_eq_false_2 by assumption.
  rewrite (isAbsolute_plain key Hslash), (endsWithSlash_plain key Hslash).
  rewrite (split_plain key Hslash), (normalizeSegments_plain _ _ key Hkey).
  simpl. now rewrite bool_decide_eq_false_2.
Qed.

(** The keys [./k] and [k] name the same file. *)
Lemma join_dot_slash path key :
  plainName key -> join path ("./" +:+ key) = join path key.
Proof.
  intros Hkey. pose proof Hkey as (Hne & Hdot & Hdots & Hslash & _).
  assert (Hsplit : split ("./" +:+ key) = ["."; key]).
  { change ("./" +:+ key) with ("." +:+ "/" +:+ key).
    now rewrite split_append_slash, (split_plain key Hslash). }
  assert (Hskip : forall allow res,
             normalizeSegments allow res ["."; key] = (res ++ [key])%list).
  { intros allow res. simpl.
    rewrite !bool_decide_eq_false_2 by assumption. reflexivity. }
  unfold join. destruct (bool_decide (path = "")) eqn:Hpath.
  - rewrite !bool_decide_eq_false_2; [| assumption | discriminate].
    rewrite (normalize_plain key Hkey).
    unfold normalize. rewrite bool_decide_eq_false_2 by discriminate.
    rewrite Hsplit, Hskip.
    change (endsWithSlash ("./" +:+ key)) with (endsWithSlash ("./" +:+ key)).
    rewrite (endsWithSlash_append "./" key Hne), (endsWithSlash_plain key Hslash).
    simpl. now rewrite bool_decide_eq_false_2.
  - apply bool_decide_eq_false in Hpath.
    rewrite !bool_decide_eq_false_2; [| assumption | discriminate].
    apply normalize_parts.
    + destruct path; [contradiction | discriminate].
    + destruct path; [contradiction | discriminate].
    + destruct path; [contradiction | reflexivity].
    + change (path +:+ "/" +:+ "./" +:+ key) with (path +:+ "/./" +:+ key).
      rewrite <- !append_assoc.
      now rewrite !(endsWithSlash_append _ key Hne).
    + assert (Habs : isAbsolute (path +:+ "/" +:+ "./" +:+ key)
                     = isAbsolute (path +:+ "/" +:+ key))
        by (destruct path; [contradiction | reflexivity]).
      rewrite Habs, !split_append_slash, Hsplit, (split_plain key Hslash).
      rewrite !normalizeSegments_app, Hskip.
      now rewrite (normalizeSegments_plain _ _ key Hkey).
Qed.

(** From a store directory that is a plain name, the key [../k] leads to
    [k] beside the directory. *)
Lemma join_dot_dot dir key :
  plainName dir -> plainName key -> join dir ("../" +:+ key) = key.
Proof.
  intros Hdir Hkey.
  pose proof Hdir as (Hdne & Hddot & Hddots & Hdslash & _).
  pose proof Hkey as (Hne & Hdot & Hdots & Hslash & _).
  unfold join. rewrite !bool_decide_eq_false_2; [| discriminate | assumption].
  unfold normalize.
  rewrite bool_decide_eq_false_2 by (destruct dir; [contradiction | discriminate]).
  assert (Habs : isAbsolute (dir +:+ "/" +:+ "../" +:+ key) = false).
  { destruct dir as [|c dir]; [contradiction |]. simpl in *.
    now apply orb_false_iff in Hdslash as [? _]. }
  assert (Hend : endsWithSlash (dir +:+ "/" +:+ "../" +:+ key) = false).
  { change (dir +:+ "/" +:+ "../" +:+ key) with (dir +:+ "/../" +:+ key).
    rewrite <- append_assoc.
    now rewrite (endsWithSlash_append _ key Hne), (endsWithSlash_plain key Hslash). }
  assert (Hsplit : split (dir +:+ "/" +:+ "../" +:+ key) = [dir; ".."; key]).
  { change ("../" +:+ key) with (".." +:+ "/" +:+ key).
    rewrite !split_append_slash, (split_plain dir Hdslash), (split_plain key Hslash).
    reflexivity. }
  rewrite Habs, Hend, Hsplit. simpl.
  rewrite (bool_decide_eq_false_2 (dir = "")) by assumption.
  rewrite (bool_decide_eq_false_2 (dir = ".")) by assumption.
  rewrite (bool_decide_eq_false_2 (dir = "..")) by assumption.
  rewrite (bool_decide_eq_false_2 (key = "")) by assumption.
  rewrite (bool_decide_eq_false_2 (key = ".")) by assumption.
  rewrite (bool_decide_eq_false_2 (key = "..")) by assumption.
  simpl. now rewrite (bool_decide_eq_false_2 (key = "")).
Qed.

(** A plain name is looked up in the working directory. *)
Lemma locate_plain (w : t) key :
  plainName key -> locate w key = inr ((cwd w ++ [key])%list, false).
Proof.
  intros (Hne & Hdot & Hdots & Hslash & Hnul).
  unfold locate, wantsDirectory.
  rewrite Hnul, (isAbsolute_plain key Hslash), (split_plain key Hslash).
  rewrite bool_decide_eq_false_2 by assumption.
  rewrite walk_name by (try split; assumption). simpl.
  now rewrite !bool_decide_eq_false_2 by assumption.
Qed.

End PathMore.

(** X11. Keys are not taken literally: for a plain name [k] the keys
    [./k] and [k] reach the same file, so the store reads and writes them
    alike, and what is written under [./k] is read back under [k]. *)
Theorem dot_slash_key_aliases (path key value : string) (w : FS.t) :
  FS.plainName key ->
  DirectoryMapStore.read path ("./" +:+ key) w = DirectoryMapStore.read path key w /\
  DirectoryMapStore.write path ("./" +:+ key) value w
  = DirectoryMapStore.write path key value w /\
  (forall w1,
      DirectoryMapStore.write path ("./" +:+ key) value w
      = (w1, JS.Normal (success tt)) ->
      DirectoryMapStore.read path key w1 = JS.Normal (success value)).
Proof.
  intros Hkey.
  unfold DirectoryMapStore.read, DirectoryMapStore.write.
  rewrite (PathMore.join_dot_slash path key Hkey).
  split; [reflexivity |]. split; [reflexivity |].
  intros w1 Hw. exact (write_read path key value w w1 Hw).
Qed.

Lemma dot_slash_key_aliases_witness :
  DirectoryMapStore.read "data" "a"
    (DirectoryMapStore.write "data" "./a" "hello" Sample.dataDisk).1
  = JS.Normal (success "hello").
Proof.
  refine (proj2 (proj2 (dot_slash_key_aliases "data" "a" "hello" Sample.dataDisk _))
            _ _).
  - repeat split; (discriminate || reflexivity).
  - reflexivity.
Defined.

(** X12. Keys are not confined to the directory of the store: when the
    store sits at a plain name, a successful [write] under the key [../k]
    creates or replaces the file [k] beside the directory of the store,
    and the listing of the store is as before. *)
Theorem dot_dot_key_leaves_store (dir key value : string) (w w1 : FS.t) :
  mounted dir w ->
  FS.plainName dir ->
  FS.plainName key ->
  DirectoryMapStore.write dir ("../" +:+ key) value w = (w1, JS.Normal (success tt)) ->
  FS.join dir ("../" +:+ key) = key /\
  FS.readFile w1 key = inr value /\
  DirectoryMapStore.list_ dir w1 = DirectoryMapStore.list_ dir w.
Proof.
  intros Hm Hdir Hkey Hwrite.
  pose proof (PathMore.join_dot_dot dir key Hdir Hkey) as Hjoin.
  split; [exact Hjoin |].
  unfold DirectoryMapStore.write in Hwrite. rewrite Hjoin in Hwrite.
  unfold FS.writeFile in Hwrite.
  rewrite (PathMore.locate_plain w key Hkey) in Hwrite.
  destruct (FS.change (FS.writes false value) (FS.root w) (FS.cwd w ++ [key]))
    as [e|root'] eqn:Hchange; [discriminate |].
  injection Hwrite as <-.
  destruct (FSFacts.change_writes_file _ _ _ _ _ Hchange) as [_ Hfile].
  split.
  - unfold FS.readFile.
    change (FS.locate {| FS.root := root'; FS.cwd := FS.cwd w |} key)
      with (FS.locate w key).
    rewrite (PathMore.locate_plain w key Hkey). simpl. now rewrite Hfile.
  - destruct (mounted_directory dir w Hm) as (names & dirOnly & inner & Hloc & Hfind).
    rewrite (PathMore.locate_plain w dir Hdir) in Hloc. injection Hloc as <- <-.
    destruct (FSMore.find_parent _ _ _ _ Hfind) as (here & Hhere & Hentry).
    destruct (FSMore.change_at_child _ _ _ _ _ _ Hhere Hchange) as (r & Hr & Hhere').
    assert (Hne : key <> dir).
    { intros ->. rewrite Hentry in Hr. discriminate. }
    assert (Hfind' : FS.find root' (FS.cwd w ++ [dir]) = inr (FS.Dir inner)).
    { rewrite (FSFacts.find_into_directory _ _ _ dir Hhere').
      destruct r as [n|].
      - rewrite lookup_insert_ne by done. now rewrite Hentry.
      - rewrite lookup_delete_ne by done. now rewrite Hentry. }
    unfold DirectoryMapStore.list_, FS.readdir.
    change (FS.locate {| FS.root := root'; FS.cwd := FS.cwd w |} dir)
      with (FS.locate w dir).
    rewrite (PathMore.locate_plain w dir Hdir). simpl.
    now rewrite Hfind', Hfind.
Qed.

Lemma dot_dot_key_leaves_store_witness :
  FS.join "data" ("../" +:+ "passwd") = "passwd" /\
  FS.readFile (DirectoryMapStore.write "data" "../passwd" "x" Sample.dataDisk).1
    "passwd" = inr "x" /\
  DirectoryMapStore.list_ "data"
    (DirectoryMapStore.write "data" "../passwd" "x" Sample.dataDisk).1
  = DirectoryMapStore.list_ "data" Sample.dataDisk.
Proof.
  apply (dot_dot_key_leaves_store "data" "passwd" "x" Sample.dataDisk).
  - reflexivity.
  - repeat split; (discriminate || reflexivity).
  - repeat split; (discriminate || reflexivity).
  - reflexivity.
Defined.

(** ** The combinators and the JSON layer, beyond the claims *)

Lemma substring_none (n : nat) (s : string) : String.substring n 0 s = "".
Proof.
  revert n. induction s as [|c s IH]; intros [|n]; simpl; auto.
Qed.

(** [key.slice(0, -n)] of a key of at most [n > 0] code units is empty. *)
Lemma slice_chops_short (key : string) (n : Z) :
  0 < n -> JS.strlen key <= n -> JS.slice key 0 (Some (0 - n)) = "".
Proof.
  unfold JS.slice, JS.strlen. intros Hn Hlen.
  change (0 <? 0) with false. cbv iota.
  destruct (Z.ltb_spec (0 - n) 0) as [_|Hpos]; [| lia].
  set (from := Z.min 0 _). set (count := Z.max _ 0).
  replace (Z.to_nat count) with 0%nat by lia.
  apply substring_none.
Qed.

(** X13. [list] of a store wrapped with a file extension answers with one
    key for every key the inner store lists: the inner key without its
    last [fileExtension.length + 1] code units, whatever they are. The
    suffix is not checked and nothing is filtered out: a name with another
    ending comes back cut short, and a name no longer than the suffix
    comes back as the empty string. *)
Theorem extension_list_does_not_filter {St V : Type} (fileExtension : string)
    (storage : STDMapStore.t St string V) (s : St) (innerKeys : list string) :
  STDMapStore.list_ storage s = JS.Normal (success innerKeys) ->
  exists listed,
    STDMapStore.list_ (transformKeyWithFileExtension fileExtension storage) s
    = JS.Normal (success listed) /\
    Forall2 (fun inner key =>
               (forall rest suffix, inner = rest +:+ suffix ->
                  JS.strlen suffix = JS.strlen fileExtension + 1 -> key = rest) /\
               (JS.strlen inner <= JS.strlen fileExtension + 1 -> key = ""))
            innerKeys listed.
Proof.
  intros Hlist. exists (FileExtension.backward fileExtension <$> innerKeys). split.
  - unfold transformKeyWithFileExtension. now rewrite transformKey_list, Hlist.
  - apply Forall2_fmap_r, Forall_Forall2_diag, Forall_forall.
    intros inner _. unfold FileExtension.backward.
    assert (Hpos : 0 < JS.strlen fileExtension + 1) by (unfold JS.strlen; lia).
    split.
    + intros rest suffix -> Hlen. rewrite <- Hlen. apply slice_chops. lia.
    + intros Hshort. now apply slice_chops_short.
Qed.

Lemma extension_list_does_not_filter_witness :
  exists listed,
    STDMapStore.list_ (transformKeyWithFileExtension ".json" MemoryMapStore.ops)
      (Sample.memoryWith [("a..json", "1"); ("README", "2"); ("notes.txt", "3")])
    = JS.Normal (success listed) /\
    Forall2 (fun inner key =>
               (forall rest suffix, inner = rest +:+ suffix ->
                  JS.strlen suffix = JS.strlen ".json" + 1 -> key = rest) /\
               (JS.strlen inner <= JS.strlen ".json" + 1 -> key = ""))
            ["a..json"; "notes.txt"; "README"] listed.
Proof.
  apply (extension_list_does_not_filter ".json" MemoryMapStore.ops). reflexivity.
Defined.

(** Keys under namespaces without a slash tell their namespace. *)
Lemma namespace_prefix_unique (a b x y : string) :
  FS.hasSlash a = false -> FS.hasSlash b = false ->
  a +:+ "/" +:+ x = b +:+ "/" +:+ y -> a = b /\ x = y.
Proof.
  assert (Hnil : forall s : string, "" +:+ s = s) by reflexivity.
  revert b. induction a as [|c a IH]; intros [|c' b] Ha Hb Heq;
    rewrite ?Hnil, ?FSFacts.append_cons in Heq.
  - rewrite !Hnil in Heq. now injection Heq as ->.
  - rewrite Hnil in Heq. injection Heq as <- _. simpl in Hb. discriminate.
  - rewrite Hnil in Heq. injection Heq as -> _. simpl in Ha. discriminate.
  - injection Heq as -> Heq. simpl in Ha, Hb.
    apply orb_false_iff in Ha as [_ Ha]. apply orb_false_iff in Hb as [_ Hb].
    destruct (IH b Ha Hb Heq) as [-> ->]. auto.
Qed.

(** X14. Two namespaces without a slash never meet: their forward keys
    differ whenever the namespaces differ, so on one shared memory store a
    [write] or [destroy] through one namespace leaves every [read] through
    the other as it was. *)
Theorem namespaces_without_slash_are_disjoint {V : Type}
    (ns1 ns2 : string) (m : gmap string V) :
  FS.hasSlash ns1 = false ->
  FS.hasSlash ns2 = false ->
  ns1 <> ns2 ->
  let store1 := transformKeyWithNamespace ns1 MemoryMapStore.ops in
  let store2 := transformKeyWithNamespace ns2 MemoryMapStore.ops in
  (forall key1 key2, Namespace.forward ns1 key1 <> Namespace.forward ns2 key2) /\
  (forall key1 value key2,
      STDMapStore.read store2 key2 (STDMapStore.write store1 key1 value m).1
      = STDMapStore.read store2 key2 m) /\
  (forall key1 key2,
      STDMapStore.read store2 key2 (STDMapStore.destroy store1 key1 m).1
      = STDMapStore.read store2 key2 m).
Proof.
  intros H1 H2 Hne. cbv zeta.
  assert (Hdiff : forall key1 key2,
             Namespace.forward ns1 key1 <> Namespace.forward ns2 key2).
  { intros key1 key2 Heq. unfold Namespace.forward in Heq.
    now destruct (namespace_prefix_unique _ _ _ _ H1 H2 Heq). }
  split; [exact Hdiff |]. split.
  - intros key1 value key2. simpl.
    unfold transformKey.read, transformKey.write. simpl.
    rewrite !memory_read_lookup. unfold MemoryMapStore.write, Map2.set. simpl.
    rewrite lookup_insert_ne; [reflexivity |]. apply Hdiff.
  - intros key1 key2. simpl.
    unfold transformKey.read, transformKey.destroy. simpl.
    rewrite !memory_read_lookup.
    unfold MemoryMapStore.destroy, Map2.delete.
    destruct (m !! Namespace.forward ns1 key1); simpl; [| reflexivity].
    rewrite lookup_delete_ne; [reflexivity |]. apply Hdiff.
Qed.

Lemma namespaces_without_slash_are_disjoint_witness :
  let users := transformKeyWithNamespace "users" MemoryMapStore.ops in
  let roles := transformKeyWithNamespace "roles" MemoryMapStore.ops in
  STDMapStore.read roles "r1"
    (STDMapStore.write users "r1" "2" (Sample.memoryWith [("roles/r1", "1")])).1
  = STDMapStore.read roles "r1" (Sample.memoryWith [("roles/r1", "1")]).
Proof.
  cbv zeta.
  refine (proj1 (proj2 (namespaces_without_slash_are_disjoint "users" "roles"
                          (Sample.memoryWith [("roles/r1", "1")]) _ _ _))
            "r1" "2" "r1");
    (reflexivity || discriminate).
Defined.

(** With a slash in a namespace the forward keys can meet: the key [b/c]
    under [a] is the key [c] under [a/b]. *)
Example namespaces_with_slash_meet :
  Namespace.forward "a" "b/c" = Namespace.forward "a/b" "c".
Proof. reflexivity. Qed.

(** X15. A value that [JSON.stringify] turns into [undefined] is written
    as the empty text: on a memory store the [write] succeeds, and the
    [read] of that key throws what [JSON.parse] throws for the empty
    text. *)
Theorem undefined_value_is_unreadable {Json Value : Type}
    (JSON_parse : string -> JS.Completion Json)
    (JSON_stringify : Value -> option string)
    (valueModel : Model.t Json Value) (keyModel : Model.t string string)
    (key : string) (value : Value) (m : gmap string string) (e : JS.Error) :
  JSON_stringify value = None ->
  JSON_parse "" = JS.Throw e ->
  let store := createJSONModeledStorage JSON_parse JSON_stringify
                 MemoryMapStore.ops valueModel keyModel in
  let after := STDMapStore.write store key value m in
  after.2 = JS.Normal (success tt) /\
  MemoryMapStore.read key after.1 = JS.Normal (success "") /\
  STDMapStore.read store key after.1 = JS.Throw e.
Proof.
  intros Hundefined Hparse. cbv zeta. unfold createJSONModeledStorage. simpl.
  unfold JSONModeledStorage.write, defaultStringFromKey, defaultStringFromValue.
  rewrite Hundefined. simpl.
  split; [reflexivity |]. split; [apply memory_write_read |].
  rewrite read_outcomes. simpl.
  unfold Map2.get. rewrite lookup_insert_eq. simpl. now rewrite Hparse.
Qed.

Lemma undefined_value_is_unreadable_witness :
  let store := createJSONModeledStorage Sample.parseLiteral Sample.stringifyMaybe
                 MemoryMapStore.ops Sample.definedJson Sample.noSpaceKey in
  let after := STDMapStore.write store "a" None ∅ in
  after.2 = JS.Normal (success tt) /\
  MemoryMapStore.read "a" after.1 = JS.Normal (success "") /\
  STDMapStore.read store "a" after.1 = JS.Throw JS.SyntaxError.
Proof.
  apply (undefined_value_is_unreadable Sample.parseLiteral Sample.stringifyMaybe
           Sample.definedJson Sample.noSpaceKey "a" None ∅); reflexivity.
Defined.

(** X16. The store the factory assembles for ['local-json'] round-trips
    a value through its file. When [JSON.stringify] gives a text for the
    value, [write(key, value)] is the [write] of the directory store for
    the key [key..json] and that text; and whenever it returns success,
    the file [key..json] of the store holds the text, and [read(key)]
    returns what the value model makes of the parsed text. This holds for
    every key, the empty one included; whether the system accepts the file
    is not part of it. *)
Theorem local_json_round_trip {Json Value : Type}
    (JSON_parse : string -> JS.Completion Json)
    (JSON_stringify : Value -> option string)
    (valueModel : Model.t Json Value) (keyModel : Model.t string string)
    (path key : string) (value value' : Value) (w w1 : FS.t)
    (text : string) (parsed : Json) :
  JSON_stringify value = Some text ->
  JSON_parse text = JS.Normal parsed ->
  Model.from valueModel parsed = success value' ->
  let store := createJSONModeledStorage JSON_parse JSON_stringify
                 (transformKeyWithFileExtension ".json" (DirectoryMapStore.ops path))
                 valueModel keyModel in
  STDMapStore.write store key value w
  = DirectoryMapStore.write path (key +:+ "..json") text w /\
  (STDMapStore.write store key value w = (w1, JS.Normal (success tt)) ->
   FS.readFile w1 (FS.join path (key +:+ "..json")) = inr text /\
   STDMapStore.read store key w1 = JS.Normal (success value')).
Proof.
  intros Htext Hparse Hmodel. cbv zeta.
  assert (Hcall : STDMapStore.write
            (createJSONModeledStorage JSON_parse JSON_stringify
               (transformKeyWithFileExtension ".json" (DirectoryMapStore.ops path))
               valueModel keyModel) key value w
            = DirectoryMapStore.write path (key +:+ "..json") text w).
  { unfold createJSONModeledStorage. simpl.
    unfold JSONModeledStorage.write, defaultStringFromValue. rewrite Htext.
    case_bool_decide as Hempty; [rewrite Hempty |]; reflexivity. }
  split; [exact Hcall |].
  rewrite Hcall. intros Hwrite.
  pose proof (write_read path _ _ _ _ Hwrite) as Hread.
  split.
  - unfold DirectoryMapStore.read in Hread.
    destruct (FS.readFile w1 (FS.join path (key +:+ "..json"))) as [e|content].
    + destruct (isMissing _); discriminate.
    + now injection Hread as ->.
  - unfold createJSONModeledStorage. simpl. rewrite read_outcomes.
    change (STDMapStore.read (transformKeyWithFileExtension ".json"
              (DirectoryMapStore.ops path)) (defaultStringFromKey key) w1)
      with (DirectoryMapStore.read path (key +:+ "..json") w1).
    now rewrite Hread, Hparse, Hmodel.
Qed.

Lemma local_json_round_trip_witness :
  let store := createJSONModeledStorage Sample.parseLiteral Sample.stringifyLiteral
                 (transformKeyWithFileExtension ".json" (DirectoryMapStore.ops "data"))
                 Sample.anyJson Sample.noSpaceKey in
  let w1 := (STDMapStore.write store "" (Sample.JBool true) Sample.dataDisk).1 in
  FS.readFile w1 (FS.join "data" ("" +:+ "..json")) = inr "true" /\
  STDMapStore.read store "" w1 = JS.Normal (success (Sample.JBool true)).
Proof.
  cbv zeta.
  apply (proj2 (local_json_round_trip Sample.parseLiteral Sample.stringifyLiteral
           Sample.anyJson Sample.noSpaceKey "data" "" (Sample.JBool true)
           (Sample.JBool true) Sample.dataDisk _ "true" (Sample.JBool true)
           eq_refl eq_refl eq_refl)).
  reflexivity.
Defined.

(** ** The REST route *)

Module RouteFacts.
Import Route.

Lemma route_split_not_nil sep s : split sep s <> [].
Proof.
  destruct s as [|c s]; simpl; [discriminate |].
  destruct (Ascii.eqb c sep); [discriminate |].
  destruct (split sep s); discriminate.
Qed.

(** A string without the separator is one piece. *)
Lemma split_whole sep s : hasChar sep s = false -> split sep s = [s].
Proof.
  induction s as [|c s IH]; simpl; [reflexivity |].
  intros H. apply orb_false_iff in H as [Hc Hs].
  now rewrite Hc, (IH Hs).
Qed.

(** Cutting at a separator cuts both sides. *)
Lemma split_at sep a b :
  split sep (a +:+ String sep b) = (split sep a ++ split sep b)%list.
Proof.
  induction a as [|c a IH].
  - change ("" +:+ String sep b) with (String sep b). simpl.
    now rewrite Ascii.eqb_refl.
  - rewrite FSFacts.append_cons. simpl. destruct (Ascii.eqb c sep).
    + now rewrite IH.
    + rewrite IH. destruct (split sep a) as [|piece pieces] eqn:Hs.
      * now apply route_split_not_nil in Hs.
      * reflexivity.
Qed.

(** No piece holds the separator, nor a character the string is free
    of. *)
Lemma route_split_pieces sep c s :
  (c = sep \/ hasChar c s = false) ->
  Forall (fun piece => hasChar c piece = false) (split sep s).
Proof.
  induction s as [|x s IH]; intros Hc; simpl; [repeat constructor |].
  assert (Hrest : c = sep \/ hasChar c s = false).
  { destruct Hc as [->|Hc]; [now left |]. right. simpl in Hc.
    now apply orb_false_iff in Hc as [_ ?]. }
  specialize (IH Hrest).
  destruct (Ascii.eqb x sep) eqn:Hx; [constructor; [reflexivity | exact IH] |].
  assert (Hxc : Ascii.eqb x c = false).
  { destruct Hc as [->|Hc]; [exact Hx |]. simpl in Hc.
    now apply orb_false_iff in Hc as [? _]. }
  destruct (split sep s) as [|piece pieces];
    [repeat constructor; simpl; now rewrite Hxc |].
  apply Forall_cons in IH as [Hp Hps].
  constructor; [simpl; now rewrite Hxc, Hp | exact Hps].
Qed.

Lemma hasChar_append c a b :
  hasChar c (a +:+ b) = hasChar c a || hasChar c b.
Proof.
  induction a as [|x a IH]; [reflexivity |].
  rewrite FSFacts.append_cons. simpl. rewrite IH. now rewrite orb_assoc.
Qed.

(** The part [k=v] of a query is the pair of [k] and [v]. *)
Lemma split_pair key value :
  hasChar "=" key = false -> hasChar "=" value = false ->
  split "=" (key +:+ "=" +:+ value) = [key; value].
Proof.
  intros Hk Hv. change (key +:+ "=" +:+ value) with (key +:+ String "=" value).
  now rewrite split_at, (split_whole _ key Hk), (split_whole _ value Hv).
Qed.

Lemma queryString_pieces pairs :
  pairs <> [] ->
  Forall (fun '(key, value) => clean key /\ clean value) pairs ->
  split "&" (queryString pairs)
  = (fun '(key, value) => key +:+ "=" +:+ value) <$> pairs /\
  hasChar "?" (queryString pairs) = false.
Proof.
  induction pairs as [|[key value] pairs IH]; intros Hne Hall; [contradiction |].
  apply Forall_cons in Hall as [[(Hk1 & Hk2 & Hk3) (Hv1 & Hv2 & Hv3)] Hall].
  assert (Hpart : hasChar "&" (key +:+ "=" +:+ value) = false)
    by now rewrite !hasChar_append, Hk2, Hv2.
  assert (Hpart' : hasChar "?" (key +:+ "=" +:+ value) = false)
    by now rewrite !hasChar_append, Hk1, Hv1.
  destruct pairs as [|next pairs].
  - simpl. split; [now rewrite (split_whole _ _ Hpart) | exact Hpart'].
  - destruct (IH ltac:(discriminate) Hall) as [IH1 IH2].
    change (queryString ((key, value) :: next :: pairs))
      with (key +:+ "=" +:+ value +:+ "&" +:+ queryString (next :: pairs)).
    split.
    + assert (Hshape : key +:+ "=" +:+ value +:+ "&" +:+ queryString (next :: pairs)
                       = (key +:+ "=" +:+ value)
                         +:+ String "&" (queryString (next :: pairs)))
        by (rewrite !append_assoc; reflexivity).
      rewrite Hshape, split_at, IH1. now rewrite (split_whole _ _ Hpart).
    + rewrite !hasChar_append, Hk1, Hv1, IH2. reflexivity.
Qed.


(** The first piece: the string up to its first separator. *)
Lemma split_head sep s :
  exists first rest,
    split sep s = first :: rest /\
    hasChar sep first = false /\
    (s = first /\ rest = [] \/
     exists tail, s = first +:+ String sep tail /\ rest = split sep tail).
Proof.
  induction s as [|c s IH]; simpl.
  - exists "", []. auto.
  - destruct (Ascii.eqb c sep) eqn:Hc.
    + apply Ascii.eqb_eq in Hc as ->.
      exists "", (split sep s). split; [reflexivity |]. split; [reflexivity |].
      right. exists s. auto.
    + destruct IH as (first & rest & -> & Hclean & Hshape).
      exists (String c first), rest. split; [reflexivity |].
      split; [simpl; now rewrite Hc |].
      destruct Hshape as [[-> ->]|(tail & -> & ->)]; [now left |].
      right. exists tail. auto.
Qed.

Lemma createHeadersLoop_step rawHeaders fuel i headers :
  createHeadersLoop rawHeaders (S fuel) i headers
  = if (2 * i <? length rawHeaders)%nat then
      createHeadersLoop rawHeaders fuel (S i)
        (headers ++ [(rawHeaders !! (i * 2)%nat, rawHeaders !! (i * 2 + 1)%nat)])
    else headers.
Proof. reflexivity. Qed.

Lemma createHeadersLoop_pairs fuel : forall rest before i headers,
  length before = (2 * i)%nat ->
  (length rest <= 2 * fuel)%nat ->
  createHeadersLoop (before ++ rest) fuel i headers = (headers ++ pairUp rest)%list.
Proof.
  induction fuel as [|fuel IH]; intros rest before i headers Hbefore Hfuel.
  - destruct rest; [| simpl in Hfuel; lia]. simpl. now rewrite app_nil_r.
  - rewrite createHeadersLoop_step.
    destruct (Nat.ltb_spec (2 * i) (length (before ++ rest))) as [Hlt|Hge];
      rewrite length_app in *.
    + destruct rest as [|name rest]; [simpl in Hlt; lia |].
      rewrite !lookup_app_r by lia.
      replace (i * 2 - length before)%nat with 0%nat by lia.
      replace (i * 2 + 1 - length before)%nat with 1%nat by lia.
      destruct rest as [|value rest].
      * simpl lookup. simpl pairUp.
        destruct fuel as [|fuel']; [reflexivity |].
        rewrite createHeadersLoop_step.
        destruct (Nat.ltb_spec (2 * S i) (length (before ++ [name]))) as [Hlt'|_];
          [rewrite length_app in Hlt'; simpl in Hlt'; lia | reflexivity].
      * simpl lookup.
        change (before ++ name :: value :: rest)%list
          with (before ++ [name; value] ++ rest)%list.
        rewrite app_assoc, IH.
        -- simpl. now rewrite <- app_assoc.
        -- rewrite length_app. simpl. lia.
        -- simpl in Hfuel. lia.
    + destruct rest; [| simpl in Hge; lia]. simpl. now rewrite app_nil_r.
Qed.

Lemma pairUp_flat rawHeaders :
  flatten (pairUp rawHeaders) = rawHeaders /\
  length (pairUp rawHeaders) = ((length rawHeaders + 1) / 2)%nat.
Proof.
  assert (Hboth : forall l : list string,
            (flatten (pairUp l) = l /\
             length (pairUp l) = ((length l + 1) / 2)%nat) /\
            forall x,
              flatten (pairUp (x :: l)) = x :: l /\
              length (pairUp (x :: l)) = ((length (x :: l) + 1) / 2)%nat).
  { induction l as [|y l [[IHflat IHlen] IHcons]].
    - split; [split; reflexivity |]. intros x. split; reflexivity.
    - split; [apply IHcons |]. intros x.
      change (pairUp (x :: y :: l)) with ((Some x, Some y) :: pairUp l).
      split.
      + simpl. now rewrite IHflat.
      + simpl length. rewrite IHlen.
        replace (S (S (length l)) + 1)%nat with (length l + 1 + 1 * 2)%nat by lia.
        rewrite Nat.div_add by lia. lia. }
  apply Hboth.
Qed.

End RouteFacts.

Section RouteClaims.
Import Route.

(** X17. [createQuery] reads back a query that is spelled out: for a path
    without [?] and at least one pair of keys and values free of [?], [&]
    and [=], the URL [path?k1=v1&...&kn=vn] gives the pairs in order, keys
    and values defined. *)
Theorem createQuery_reads_pairs (path : string) (pairs : list (string * string)) :
  hasChar "?" path = false ->
  pairs <> [] ->
  Forall (fun '(key, value) => clean key /\ clean value) pairs ->
  createQuery (path +:+ "?" +:+ queryString pairs)
  = (fun '(key, value) => (Some key, Some value)) <$> pairs.
Proof.
  intros Hpath Hne Hall.
  destruct (RouteFacts.queryString_pieces pairs Hne Hall) as [Hpieces Hquery].
  unfold createQuery.
  change (path +:+ "?" +:+ queryString pairs)
    with (path +:+ String "?" (queryString pairs)).
  rewrite RouteFacts.split_at, (RouteFacts.split_whole _ path Hpath),
    (RouteFacts.split_whole _ _ Hquery).
  simpl lookup. cbv iota. rewrite Hpieces.
  clear Hpieces Hquery Hne. induction Hall as [|[key value] rest Hpair _ IH];
    [reflexivity |].
  rewrite !fmap_cons, IH. f_equal.
  destruct Hpair as [(_ & _ & Hk) (_ & _ & Hv)].
  now rewrite (RouteFacts.split_pair key value Hk Hv).
Qed.

(** X18. A URL without a query, or with an empty one, does not give the
    empty list: [createQuery] answers with one pair whose key is the empty
    string and whose value is [undefined]. *)
Theorem createQuery_without_query (url : string) :
  hasChar "?" url = false ->
  createQuery url = [(Some "", None)] /\
  createQuery (url +:+ "?") = [(Some "", None)].
Proof.
  intros Hurl. unfold createQuery. split.
  - now rewrite (RouteFacts.split_whole _ url Hurl).
  - change (url +:+ "?") with (url +:+ String "?" "").
    now rewrite RouteFacts.split_at, (RouteFacts.split_whole _ url Hurl).
Qed.

(** X19. [createQuery] always answers with at least one pair; every key
    is defined, a value may be [undefined], and neither keys nor values
    hold any of [?], [&] and [=]. *)
Theorem createQuery_shape (url : string) :
  createQuery url <> [] /\
  Forall (fun '(key, value) =>
            (exists k, key = Some k /\ clean k) /\
            (forall v, value = Some v -> clean v))
         (createQuery url).
Proof.
  unfold createQuery.
  set (queryString := match split "?" url !! 1%nat with
                      | Some piece => piece
                      | None => ""
                      end).
  assert (Hquery : hasChar "?" queryString = false).
  { unfold queryString.
    destruct (split "?" url !! 1%nat) as [piece|] eqn:Hpiece; [| reflexivity].
    pose proof (RouteFacts.route_split_pieces "?" "?" url (or_introl eq_refl)) as Hall.
    rewrite Forall_forall in Hall. apply Hall.
    now apply list_elem_of_lookup_2 in Hpiece. }
  split.
  - intros Hnil. apply fmap_nil_inv in Hnil.
    now apply RouteFacts.route_split_not_nil in Hnil.
  - apply Forall_fmap, Forall_forall. intros part Hpart. simpl.
    assert (Hpart1 : hasChar "?" part = false).
    { pose proof (RouteFacts.route_split_pieces "&" "?" queryString (or_intror Hquery)) as Hall.
      rewrite Forall_forall in Hall. now apply Hall. }
    assert (Hpart2 : hasChar "&" part = false).
    { pose proof (RouteFacts.route_split_pieces "&" "&" queryString (or_introl eq_refl)) as Hall.
      rewrite Forall_forall in Hall. now apply Hall. }
    assert (Hclean : forall piece, piece ∈ split "=" part -> clean piece).
    { intros piece Hin. repeat split.
      - pose proof (RouteFacts.route_split_pieces "=" "?" part (or_intror Hpart1)) as Hall.
        rewrite Forall_forall in Hall. now apply Hall.
      - pose proof (RouteFacts.route_split_pieces "=" "&" part (or_intror Hpart2)) as Hall.
        rewrite Forall_forall in Hall. now apply Hall.
      - pose proof (RouteFacts.route_split_pieces "=" "=" part (or_introl eq_refl)) as Hall.
        rewrite Forall_forall in Hall. now apply Hall. }
    split.
    + destruct (split "=" part) as [|k rest] eqn:Hsplit;
        [now apply RouteFacts.route_split_not_nil in Hsplit |].
      exists k. split; [reflexivity |]. apply Hclean, list_elem_of_here.
    + intros v Hv. apply Hclean. now apply list_elem_of_lookup_2 in Hv.
Qed.

(** X20. [createHeaders] takes the raw headers two by two, in order: the
    defined names and values of its pairs spell the raw headers again,
    there are [(n + 1) / 2] pairs for [n] raw headers, and with an odd
    number the last name is paired with [undefined]. The loop needs no
    more rounds than it is given. *)
Theorem createHeaders_pairs_up (rawHeaders : list string) :
  createHeaders rawHeaders = pairUp rawHeaders /\
  flatten (createHeaders rawHeaders) = rawHeaders /\
  length (createHeaders rawHeaders) = ((length rawHeaders + 1) / 2)%nat.
Proof.
  assert (Hloop : createHeaders rawHeaders = pairUp rawHeaders).
  { unfold createHeaders.
    apply (RouteFacts.createHeadersLoop_pairs (S (length rawHeaders)) rawHeaders [] 0 []);
      simpl; lia. }
  rewrite Hloop. split; [reflexivity |]. apply RouteFacts.pairUp_flat.
Qed.

(** X21. [test] looks at the method and at the URL up to its first [?]:
    for a route path without [?] it is true exactly when the method is the
    route's and the URL is the path, alone or followed by [?] and a query.
    A route whose path holds a [?] matches nothing. *)
Theorem test_ignores_query (path method_ : string) (inc : IncomingMessage) :
  (hasChar "?" path = false ->
   test path method_ inc = true <->
   method inc = method_ /\
   (url inc = path \/ exists query, url inc = path +:+ "?" +:+ query)) /\
  (hasChar "?" path = true -> test path method_ inc = false).
Proof.
  unfold test.
  destruct (RouteFacts.split_head "?" (url inc)) as (first & rest & Hsplit & Hfirst & Hshape).
  rewrite Hsplit. simpl lookup. split.
  - intros Hpath. rewrite andb_true_iff, !bool_decide_eq_true. split.
    + intros [[= <-] Hmethod]. split; [exact Hmethod |].
      destruct Hshape as [[-> _]|(tail & -> & _)]; [now left |].
      right. now exists tail.
    + intros [Hmethod Hurl]. split; [| exact Hmethod]. f_equal.
      destruct Hurl as [Hurl|[query Hurl]]; rewrite Hurl in Hsplit.
      * rewrite (RouteFacts.split_whole _ path Hpath) in Hsplit. congruence.
      * change (path +:+ "?" +:+ query) with (path +:+ String "?" query) in Hsplit.
        rewrite RouteFacts.split_at, (RouteFacts.split_whole _ path Hpath) in Hsplit.
        simpl in Hsplit. congruence.
  - intros Hpath. apply andb_false_iff. left. apply bool_decide_eq_false.
    intros [= <-]. congruence.
Qed.

(** X4. What [createQuery] drops without a word: everything from a
    second [?] on, and in a part everything from a second [=] on; a part
    without [=] has an [undefined] value. *)
Theorem createQuery_drops_the_rest (path : string) :
  hasChar "?" path = false ->
  (forall query rest,
      hasChar "?" query = false ->
      createQuery (path +:+ "?" +:+ query +:+ "?" +:+ rest)
      = createQuery (path +:+ "?" +:+ query)) /\
  (forall key value more,
      clean key -> clean value ->
      hasChar "?" more = false -> hasChar "&" more = false ->
      createQuery (path +:+ "?" +:+ key +:+ "=" +:+ value +:+ "=" +:+ more)
      = [(Some key, Some value)]) /\
  (forall key,
      clean key -> createQuery (path +:+ "?" +:+ key) = [(Some key, None)]).
Proof.
  intros Hpath. split; [| split].
  - intros query rest Hquery. unfold createQuery.
    assert (Hshape : path +:+ "?" +:+ query +:+ "?" +:+ rest
                     = path +:+ String "?" (query +:+ String "?" rest))
      by reflexivity.
    rewrite Hshape, !RouteFacts.split_at, (RouteFacts.split_whole _ path Hpath),
      (RouteFacts.split_whole _ query Hquery).
    change (path +:+ "?" +:+ query) with (path +:+ String "?" query).
    rewrite RouteFacts.split_at, (RouteFacts.split_whole _ path Hpath),
      (RouteFacts.split_whole _ query Hquery).
    reflexivity.
  - intros key value more (Hk1 & Hk2 & Hk3) (Hv1 & Hv2 & Hv3) Hm1 Hm2.
    unfold createQuery.
    set (part := key +:+ "=" +:+ value +:+ "=" +:+ more).
    assert (Hpart1 : hasChar "?" part = false)
      by (unfold part; now rewrite !RouteFacts.hasChar_append, Hk1, Hv1, Hm1).
    assert (Hpart2 : hasChar "&" part = false)
      by (unfold part; now rewrite !RouteFacts.hasChar_append, Hk2, Hv2, Hm2).
    change (path +:+ "?" +:+ part) with (path +:+ String "?" part).
    rewrite RouteFacts.split_at, (RouteFacts.split_whole _ path Hpath),
      (RouteFacts.split_whole _ part Hpart1).
    simpl lookup. cbv iota. rewrite (RouteFacts.split_whole _ part Hpart2).
    rewrite fmap_cons. unfold part.
    change (key +:+ "=" +:+ value +:+ "=" +:+ more)
      with (key +:+ String "=" (value +:+ String "=" more)).
    rewrite !RouteFacts.split_at, (RouteFacts.split_whole _ key Hk3),
      (RouteFacts.split_whole _ value Hv3).
    reflexivity.
  - intros key (Hk1 & Hk2 & Hk3). unfold createQuery.
    change (path +:+ "?" +:+ key) with (path +:+ String "?" key).
    rewrite RouteFacts.split_at, (RouteFacts.split_whole _ path Hpath),
      (RouteFacts.split_whole _ key Hk1).
    simpl lookup. cbv iota.
    now rewrite (RouteFacts.split_whole _ key Hk2), fmap_cons,
      (RouteFacts.split_whole _ key Hk3).
Qed.

End RouteClaims.

Lemma createQuery_reads_pairs_witness :
  Route.createQuery ("/chapters" +:+ "?" +:+ Route.queryString [("id", "7"); ("page", "2")])
  = [(Some "id", Some "7"); (Some "page", Some "2")].
Proof.
  apply (createQuery_reads_pairs "/chapters" [("id", "7"); ("page", "2")]).
  - reflexivity.
  - discriminate.
  - repeat constructor.
Defined.

Lemma createQuery_without_query_witness :
  Route.createQuery "/chapters" = [(Some "", None)] /\
  Route.createQuery ("/chapters" +:+ "?") = [(Some "", None)].
Proof. apply createQuery_without_query. reflexivity. Defined.

Lemma test_ignores_query_witness :
  Route.test "/chapters" "GET"
    {| Route.url := "/chapters?id=7"; Route.method := "GET" |} = true /\
  Route.test "/chapters?all" "GET"
    {| Route.url := "/chapters?all"; Route.method := "GET" |} = false.
Proof.
  split.
  - apply (proj1 (test_ignores_query "/chapters" "GET" _)); [reflexivity |].
    split; [reflexivity |]. right. now exists "id=7".
  - apply (proj2 (test_ignores_query "/chapters?all" "GET" _)). reflexivity.
Defined.

Lemma createQuery_drops_the_rest_witness :
  Route.createQuery ("/chapters" +:+ "?" +:+ "id=7" +:+ "?" +:+ "page=2")
  = Route.createQuery ("/chapters" +:+ "?" +:+ "id=7") /\
  Route.createQuery ("/chapters" +:+ "?" +:+ "id" +:+ "=" +:+ "7" +:+ "=" +:+ "8")
  = [(Some "id", Some "7")] /\
  Route.createQuery ("/chapters" +:+ "?" +:+ "all") = [(Some "all", None)].
Proof.
  destruct (createQuery_drops_the_rest "/chapters" eq_refl) as (Hquery & Hpart & Hkey).
  split; [| split].
  - apply Hquery. reflexivity.
  - apply Hpart; repeat split.
  - apply Hkey. repeat split.
Defined.

(** Three raw headers give two pairs, the second without a value. *)
Example createHeaders_odd :
  Route.createHeaders ["Host"; "atlas"; "Accept"]
  = [(Some "Host", Some "atlas"); (Some "Accept", None)].
Proof. reflexivity. Qed.
